(** * Incremental Delaunay triangulation (Bowyer-Watson) of room centres

    A shallow embedding of [Project/DataTypes.h] and
    [Project/DelaunayTriangulation.cpp].

    - [int] is a 32-bit two's-complement integer: a [Z] with the wrap-around
      written out ([Int32]).
    - [float] is IEEE-754 binary32 with round-to-nearest-even, every
      operation rounded to binary32 ([Float32], on the Standard Library's
      [SpecFloat]).
    - The two [std::vector] members of the class are lists, threaded through
      the member functions as an explicit state record.
    - [atan2f] and [std::sort] are library functions: they are parameters of
      the development, constrained by their contracts where a result needs
      them. *)

From Stdlib Require Import ZArith List Bool Lia Permutation Sorted.
From Stdlib Require Import SpecFloat.
Import ListNotations.
Open Scope Z_scope.

(** ** 32-bit signed integers *)

Module Int32.

Definition min_signed : Z := - 2 ^ 31.
Definition max_signed : Z := 2 ^ 31 - 1.

(** The representative of [z] modulo 2^32 in [-2^31, 2^31). *)
Definition wrap (z : Z) : Z := (z + 2 ^ 31) mod 2 ^ 32 - 2 ^ 31.

Definition in_range (z : Z) : Prop := min_signed <= z <= max_signed.

Definition add (a b : Z) : Z := wrap (a + b).
Definition sub (a b : Z) : Z := wrap (a - b).
Definition mul (a b : Z) : Z := wrap (a * b).
(** C++ integer division truncates towards zero. *)
Definition div (a b : Z) : Z := wrap (Z.quot a b).

End Int32.

(** ** IEEE-754 binary32 *)

Module Float32.

Definition prec : Z := 24.
Definition emax : Z := 128.

Definition float : Type := spec_float.

Definition add : float -> float -> float := SFadd prec emax.
Definition sub : float -> float -> float := SFsub prec emax.
Definition mul : float -> float -> float := SFmul prec emax.
Definition div : float -> float -> float := SFdiv prec emax.
Definition ltb : float -> float -> bool := SFltb.

(** [static_cast<float>(i)] for an [int] [i]: the nearest binary32 value. *)
Definition of_int (i : Z) : float := binary_normalize prec emax i 0 false.

(** The integer part of a finite value, towards zero. *)
Definition trunc (f : float) : option Z :=
  match f with
  | S754_zero _ => Some 0
  | S754_finite s m e =>
      let a := match e with
               | Zneg p => Z.shiftr (Zpos m) (Zpos p)
               | _ => Z.shiftl (Zpos m) e
               end in
      Some (if s then - a else a)
  | S754_infinity _ | S754_nan => None
  end.

(** [static_cast<int>(f)]: truncation towards zero.  For a NaN, an
    infinity or a value whose integer part is not an [int], C++ leaves
    the conversion undefined; the x86 conversion instruction
    ([cvttss2si]) then gives [INT_MIN], which is what is taken here. *)
Definition to_int (f : float) : Z :=
  match trunc f with
  | Some z =>
      if (Int32.min_signed <=? z) && (z <=? Int32.max_signed) then z
      else Int32.min_signed
  | None => Int32.min_signed
  end.

Definition is_nan (f : float) : bool :=
  match f with S754_nan => true | _ => false end.

Definition zero : float := S754_zero false.

(** [FLT_EPSILON], 2^-23. *)
Definition FLT_EPSILON : float :=
  Eval vm_compute in binary_normalize prec emax 1 (-23) false.

(** [M_PI], the binary64 value 0x400921FB54442D18. *)
Definition M_PI : spec_float :=
  Eval vm_compute in binary_normalize 53 1024 7074237752028440 (-51) false.

(** [static_cast<float>(d)] for a binary64 [d]. *)
Definition of_double (d : spec_float) : float :=
  match d with
  | S754_finite s m e => binary_round prec emax s m e
  | _ => d
  end.

(** A number as a triple of integers whose lexicographic order is the
    order [SFcompare] tells. *)
Definition key (f : float) : Z * Z * Z :=
  match f with
  | S754_zero _ => (0, 0, 0)
  | S754_infinity false => (2, 0, 0)
  | S754_infinity true => (-2, 0, 0)
  | S754_finite false m e => (1, e, Zpos m)
  | S754_finite true m e => (-1, - e, Zneg m)
  | S754_nan => (0, 0, 0)
  end.

Definition lexlt (a b : Z * Z * Z) : Prop :=
  let '(a1, a2, a3) := a in
  let '(b1, b2, b3) := b in
  a1 < b1 \/ (a1 = b1 /\ (a2 < b2 \/ (a2 = b2 /\ a3 < b3))).

End Float32.

(** ** DataTypes.h *)

Record Vector2 : Type := mkVector2 { x : Z; y : Z }.

Definition Vector2_add (a other : Vector2) : Vector2 :=
  mkVector2 (Int32.add (x a) (x other)) (Int32.add (y a) (y other)).

Definition Vector2_sub (a other : Vector2) : Vector2 :=
  mkVector2 (Int32.sub (x a) (x other)) (Int32.sub (y a) (y other)).

Definition Vector2_mul (a : Vector2) (multiplier : Z) : Vector2 :=
  mkVector2 (Int32.mul (x a) multiplier) (Int32.mul (y a) multiplier).

Definition Vector2_div (a : Vector2) (divisor : Z) : Vector2 :=
  mkVector2 (Int32.div (x a) divisor) (Int32.div (y a) divisor).

Definition Vector2_eq (a other : Vector2) : bool :=
  (x a =? x other) && (y a =? y other).

(** [a.DistanceSqr(other)], with the source's parenthesisation:
    [(other.x - x) * (other.x - x) + (other.y - y) * (other.y) - y]. *)
Definition DistanceSqr (a other : Vector2) : Z :=
  Int32.sub
    (Int32.add
       (Int32.mul (Int32.sub (x other) (x a)) (Int32.sub (x other) (x a)))
       (Int32.mul (Int32.sub (y other) (y a)) (y other)))
    (y a).

(** [sqrtf] of the C library, correctly rounded, and the [float] overload
    of [abs]. *)
Definition sqrtf : Float32.float -> Float32.float :=
  SFsqrt Float32.prec Float32.emax.

Definition fabs : Float32.float -> Float32.float := SFabs.

(** The literal [0.5f]. *)
Definition half : Float32.float :=
  Eval vm_compute in binary_normalize Float32.prec Float32.emax 1 (-1) false.

(** What [ToDirection] stores in a coordinate whose quotient by the length
    is [ranged]: [static_cast<int>(abs(ranged) > 0.5f)], times -1 when
    [ranged < 0]. *)
Definition directionOf (ranged : Float32.float) : Z :=
  let c := if Float32.ltb half (fabs ranged) then 1 else 0 in
  if Float32.ltb ranged Float32.zero then Int32.mul c (-1) else c.

(** [v.ToDirection()]: the value returned and the vector [v] has become. *)
Definition ToDirection (v : Vector2) : Float32.float * Vector2 :=
  let length :=
    sqrtf (Float32.of_int
             (Int32.add (Int32.mul (x v) (x v)) (Int32.mul (y v) (y v)))) in
  let xRanged := Float32.div (Float32.of_int (x v)) length in
  let yRanged := Float32.div (Float32.of_int (y v)) length in
  (length, mkVector2 (directionOf xRanged) (directionOf yRanged)).

(** The sign bit of [f] is [s], or [f] is a NaN. *)
Definition signIs (s : bool) (f : Float32.float) : Prop :=
  match f with
  | S754_nan => True
  | S754_zero s' | S754_infinity s' | S754_finite s' _ _ => s' = s
  end.

Record Triangle : Type := mkTriangle { first : Z; second : Z; third : Z }.

Record Edge : Type := mkEdge { p0 : Vector2; p1 : Vector2 }.

(** [Edge::operator==] *)
Definition Edge_eq (e other : Edge) : bool :=
  (Vector2_eq (p0 e) (p0 other) || Vector2_eq (p0 e) (p1 other))
  && (Vector2_eq (p1 e) (p0 other) || Vector2_eq (p1 e) (p1 other)).

(** [Edge::operator<] *)
Definition Edge_lt (e other : Edge) : bool :=
  DistanceSqr (p0 e) (p1 e) <? DistanceSqr (p0 other) (p1 other).

(** The squared Euclidean distance between two points, over the integers. *)
Definition euclidSqr (a b : Vector2) : Z :=
  (x b - x a) * (x b - x a) + (y b - y a) * (y b - y a).

(** Coordinates small enough for [DistanceSqr] not to overflow. *)
Definition smallCoordinates (a : Vector2) : Prop :=
  - 2 ^ 14 <= x a <= 2 ^ 14 /\ - 2 ^ 14 <= y a <= 2 ^ 14.

(** Two edges with the same two endpoints, in either order. *)
Definition same_endpoints (e other : Edge) : Prop :=
  (p0 e = p0 other /\ p1 e = p1 other) \/ (p0 e = p1 other /\ p1 e = p0 other).

(** ** DelaunayTriangulation.cpp *)

(** Modelled from the spec: [DungeonRoom] is declared outside the two
    source files.  The rooms supply "2D integer points (room centers)";
    [Triangulate] takes the centre from [GetPosition()] and [GetSize()],
    which it combines as [Vector2] values. *)
Record DungeonRoom : Type :=
  mkDungeonRoom { GetPosition : Vector2; GetSize : Vector2 }.

(** The two containers the class owns. *)
Record DelaunayTriangulation : Type :=
  mkDelaunayTriangulation {
    m_Vertices : list Vector2;
    m_Triangles : list Triangle
  }.

(** [m_Vertices[i]] and [m_Triangles[i]].  [operator[]] is unchecked.  On a
    run the triangles in storage name positions of the vertex sequence
    ([wf_state]) and the loops stay inside the triangle sequence, so the
    defaults below are not read. *)
Definition vertexAt (vs : list Vector2) (i : Z) : Vector2 :=
  nth (Z.to_nat i) vs (mkVector2 0 0).

Definition triangleAt (ts : list Triangle) (index : nat) : Triangle :=
  nth index ts (mkTriangle 0 0 0).

(** Modelled from the spec: [AddVertex] is defined in the class header, which
    is not among the sources.  "Append the point as a new vertex; record its
    index": the vertex goes to the end of the append-only sequence and its
    position there is returned. *)
Definition AddVertex (v : Vector2) (s : DelaunayTriangulation)
  : Z * DelaunayTriangulation :=
  (Z.of_nat (length (m_Vertices s)),
   mkDelaunayTriangulation (m_Vertices s ++ [v]) (m_Triangles s)).

(** Modelled from the spec: [AddTriangle] is defined in the class header.
    "Create a new triangle" from three vertex indices: it is appended to the
    triangle collection. *)
Definition AddTriangle (a b c : Z) (s : DelaunayTriangulation)
  : DelaunayTriangulation :=
  mkDelaunayTriangulation (m_Vertices s) (m_Triangles s ++ [mkTriangle a b c]).

(** The last triangle takes the place of the one at [index] and the
    sequence loses its last position. *)
Definition swapRemove (index : nat) (ts : list Triangle) : list Triangle :=
  removelast
    (firstn index ts ++ last ts (mkTriangle 0 0 0) :: skipn (S index) ts).

(** Modelled from the spec: [RemoveTriangle] is defined in the class header.
    Triangles live in an "unordered collection from which entries may be
    removed by position", a "remove-by-swap" collection whose removal is
    "safe under reverse iteration so indices of not-yet-visited triangles
    remain valid". *)
Definition RemoveTriangle (index : nat) (s : DelaunayTriangulation)
  : DelaunayTriangulation :=
  mkDelaunayTriangulation (m_Vertices s) (swapRemove index (m_Triangles s)).

Definition Clear (s : DelaunayTriangulation) : DelaunayTriangulation :=
  mkDelaunayTriangulation [] [].

(** [screenSize] is received and not read. *)
Definition StartTriangulation (screenSize : Z) (s : DelaunayTriangulation)
  : DelaunayTriangulation :=
  let s := snd (AddVertex (mkVector2 0 0) s) in
  let s := snd (AddVertex (mkVector2 (-500) 2500) s) in
  let s := snd (AddVertex (mkVector2 2500 (-500)) s) in
  AddTriangle 0 1 2 s.

(** The integer squared distance of [IsInsideCircumcircle]:
    [(x - v.x) * (x - v.x) + (y - v.y) * (y - v.y)] in [int] arithmetic. *)
Definition centerDistSqr (cx cy : Z) (v : Vector2) : Z :=
  Int32.add
    (Int32.mul (Int32.sub cx (x v)) (Int32.sub cx (x v)))
    (Int32.mul (Int32.sub cy (y v)) (Int32.sub cy (y v))).

(** Slope of the perpendicular of the edge from [v0] to [v]. *)
Definition perpSlope (v0 v : Vector2) : Float32.float :=
  Float32.div
    (Float32.of_int (Int32.sub (x v0) (x v)))
    (Float32.add (Float32.of_int (Int32.sub (y v) (y v0))) Float32.FLT_EPSILON).

(** Intercept of the line of slope [slope] through [center]. *)
Definition intercept (center : Vector2) (slope : Float32.float)
  : Float32.float :=
  Float32.sub (Float32.of_int (y center))
              (Float32.mul slope (Float32.of_int (x center))).

(** The centre of the circle, as the two [int]s [x] and [y] of the source
    (here [cx] and [cy]: [x] and [y] name the fields of [Vector2]). *)
Definition circumcenter (v0 v1 v2 : Vector2) : Z * Z :=
  let perpSlope0 := perpSlope v0 v1 in
  let perpSlope1 := perpSlope v0 v2 in
  let edge01Center := Vector2_div (Vector2_add v0 v1) 2 in
  let edge02Center := Vector2_div (Vector2_add v0 v2) 2 in
  let intercept0 := intercept edge01Center perpSlope0 in
  let intercept1 := intercept edge02Center perpSlope1 in
  let cx := Float32.to_int
              (Float32.div (Float32.sub intercept1 intercept0)
                           (Float32.sub perpSlope0 perpSlope1)) in
  let cy := Float32.to_int
              (Float32.add (Float32.mul perpSlope0 (Float32.of_int cx))
                           intercept0) in
  (cx, cy).

Definition IsInsideCircumcircle (vs : list Vector2) (triangle : Triangle)
  (indice : Z) : bool :=
  let v0 := vertexAt vs (first triangle) in
  let v1 := vertexAt vs (second triangle) in
  let v2 := vertexAt vs (third triangle) in
  let vTest := vertexAt vs indice in
  let '(cx, cy) := circumcenter v0 v1 v2 in
  let r := centerDistSqr cx cy v1 in
  let rPoint := centerDistSqr cx cy vTest in
  rPoint <? r.

Arguments IsInsideCircumcircle : simpl never.



(** The body of the loop over the polygon: a flag is raised when the
    polygon element [v] is the first, second or third index of [t]. *)
Definition markPresent (t : Triangle) (flags : bool * bool * bool) (v : Z)
  : bool * bool * bool :=
  let '(hasFirst, hasSecond, hasThird) := flags in
  (if v =? first t then true else hasFirst,
   if v =? second t then true else hasSecond,
   if v =? third t then true else hasThird).

(** The vertices of a circumcircle-violating triangle enter the polygon:
    all three when the polygon is empty, otherwise those that the scan of
    the polygon did not find. *)
Definition collectVertices (intersectingPolygon : list Z) (t : Triangle)
  : list Z :=
  match intersectingPolygon with
  | [] => [first t; second t; third t]
  | _ :: _ =>
      let '(hasFirst, hasSecond, hasThird) :=
        fold_left (markPresent t) intersectingPolygon (false, false, false) in
      let p := if hasFirst then intersectingPolygon
               else intersectingPolygon ++ [first t] in
      let p := if hasSecond then p else p ++ [second t] in
      if hasThird then p else p ++ [third t]
  end.

(** One iteration of the first loop of [AddPoint], at position [index]. *)
Definition scanStep (newIndice : Z) (index : nat)
  (st : DelaunayTriangulation * list Z) : DelaunayTriangulation * list Z :=
  let '(s, intersectingPolygon) := st in
  let t := triangleAt (m_Triangles s) index in
  if negb (IsInsideCircumcircle (m_Vertices s) t newIndice) then st
  else (RemoveTriangle index s, collectVertices intersectingPolygon t).

(** The first loop of [AddPoint] with [n] positions left: [n - 1] down
    to [0]. *)
Fixpoint scanLoop (newIndice : Z) (n : nat)
  (st : DelaunayTriangulation * list Z) : DelaunayTriangulation * list Z :=
  match n with
  | O => st
  | S i => scanLoop newIndice i (scanStep newIndice i st)
  end.

(** The triangle the last loop of [AddPoint] makes at position [i]. *)
Definition fanTriangle (polygon : list Z) (newIndice : Z) (i : nat)
  : Triangle :=
  mkTriangle (nth i polygon 0)
             (nth ((i + 1) mod length polygon) polygon 0)
             newIndice.

(** The last loop of [AddPoint], [count] iterations from position [i]. *)
Fixpoint fanLoop (polygon : list Z) (newIndice : Z) (count i : nat)
  (s : DelaunayTriangulation) : DelaunayTriangulation :=
  match count with
  | O => s
  | S count' =>
      let t := fanTriangle polygon newIndice i in
      fanLoop polygon newIndice count' (S i)
        (AddTriangle (first t) (second t) (third t) s)
  end.

(** [if (angle < 0) angle = angle + 2.0f * static_cast<float>(M_PI)] *)
Definition normalizeAngle (angle : Float32.float) : Float32.float :=
  if Float32.ltb angle Float32.zero
  then Float32.add angle
         (Float32.mul (Float32.of_int 2) (Float32.of_double Float32.M_PI))
  else angle.

(** One iteration of the loop of [FinishTriangulation]; [existsb] stops at
    the first super-triangle index found, as the [break] does. *)
Definition touchesSuper (t : Triangle) : bool :=
  existsb
    (fun indice =>
       (first t =? indice) || (second t =? indice) || (third t =? indice))
    [0; 1; 2].

Definition finishStep (index : nat) (s : DelaunayTriangulation)
  : DelaunayTriangulation :=
  if touchesSuper (triangleAt (m_Triangles s) index)
  then RemoveTriangle index s else s.

Fixpoint finishLoop (n : nat) (s : DelaunayTriangulation)
  : DelaunayTriangulation :=
  match n with
  | O => s
  | S i => finishLoop i (finishStep i s)
  end.

Definition FinishTriangulation (s : DelaunayTriangulation)
  : DelaunayTriangulation :=
  finishLoop (length (m_Triangles s)) s.

(** The triangle sequence under a reverse loop that removes, by swap, the
    triangles [p] selects: what the loops of [AddPoint] and
    [FinishTriangulation] do to [m_Triangles]. *)
Fixpoint sweep (p : Triangle -> bool) (n : nat) (ts : list Triangle)
  : list Triangle :=
  match n with
  | O => ts
  | S i => sweep p i (if p (triangleAt ts i) then swapRemove i ts else ts)
  end.

(** *** The states a run goes through

    Each loop comes with the list of the states it passes, first to last;
    the last one is the loop's result. *)

Fixpoint scanTrace (newIndice : Z) (n : nat)
  (st : DelaunayTriangulation * list Z)
  : list (DelaunayTriangulation * list Z) :=
  match n with
  | O => [st]
  | S i => st :: scanTrace newIndice i (scanStep newIndice i st)
  end.

Fixpoint fanTrace (polygon : list Z) (newIndice : Z) (count i : nat)
  (s : DelaunayTriangulation) : list DelaunayTriangulation :=
  match count with
  | O => [s]
  | S count' =>
      let t := fanTriangle polygon newIndice i in
      s :: fanTrace polygon newIndice count' (S i)
             (AddTriangle (first t) (second t) (third t) s)
  end.

Fixpoint finishTrace (n : nat) (s : DelaunayTriangulation)
  : list DelaunayTriangulation :=
  match n with
  | O => [s]
  | S i => s :: finishTrace i (finishStep i s)
  end.

(** *** Properties of triangles and states *)

Definition distinctIndices (t : Triangle) : Prop :=
  first t <> second t /\ first t <> third t /\ second t <> third t.

(** The three indices of [t] are positions of a vertex sequence of
    length [n]. *)
Definition validIndices (n : nat) (t : Triangle) : Prop :=
  (0 <= first t < Z.of_nat n) /\ (0 <= second t < Z.of_nat n)
  /\ (0 <= third t < Z.of_nat n).

Definition wf_triangle (n : nat) (t : Triangle) : Prop :=
  distinctIndices t /\ validIndices n t.

Definition wf_state (s : DelaunayTriangulation) : Prop :=
  Forall (wf_triangle (length (m_Vertices s))) (m_Triangles s).

(** [t] names one of the super-triangle vertices 0, 1, 2. *)
Definition referencesSuper (t : Triangle) : Prop :=
  exists indice, 0 <= indice <= 2 /\
    (first t = indice \/ second t = indice \/ third t = indice).

(** A polygon without repetition, not of length one, whose entries are
    positions below [nv]: what the first loop of [AddPoint] leaves when the
    triangles in storage are well formed among [nv] vertices. *)
Definition polygonInv (nv : nat) (polygon : list Z) : Prop :=
  NoDup polygon /\ length polygon <> 1%nat
  /\ Forall (fun v => 0 <= v < Z.of_nat nv) polygon.

(** What the first loop of [AddPoint] keeps, [nv] being the number of
    vertices before the new one: the vertex sequence has grown by one, the
    triangles are well formed among the first [nv] vertices, and so is the
    polygon. *)
Definition scanInv (nv : nat) (st : DelaunayTriangulation * list Z) : Prop :=
  length (m_Vertices (fst st)) = S nv
  /\ Forall (wf_triangle nv) (m_Triangles (fst st))
  /\ polygonInv nv (snd st).

(** *** The contracts of the library functions *)

(** What [std::sort] asks of its comparison function. *)
Definition strict_weak_order {A : Type} (cmp : A -> A -> bool) : Prop :=
  (forall a, cmp a a = false)
  /\ (forall a b c, cmp a b = true -> cmp b c = true -> cmp a c = true)
  /\ (forall a b c,
        cmp a b = false -> cmp b a = false ->
        cmp b c = false -> cmp c b = false ->
        cmp a c = false /\ cmp c a = false).

(** What [std::sort] gives for such a function: the same elements, none
    placed after one it is less than. *)
Definition sort_contract (sort : (Z -> Z -> bool) -> list Z -> list Z)
  : Prop :=
  forall cmp l, strict_weak_order cmp ->
    Permutation l (sort cmp l)
    /\ StronglySorted (fun a b => cmp b a = false) (sort cmp l).

(** [atan2f] of two numbers is a number. *)
Definition atan2f_contract
  (atan2f : Float32.float -> Float32.float -> Float32.float) : Prop :=
  forall b a, Float32.is_nan b = false -> Float32.is_nan a = false ->
    Float32.is_nan (atan2f b a) = false.

(** [static_cast<float>(M_PI)] and [2.0f * static_cast<float>(M_PI)]. *)
Definition pi_f : Float32.float := Float32.of_double Float32.M_PI.

Definition twoPi : Float32.float :=
  Float32.mul (Float32.of_int 2) (Float32.of_double Float32.M_PI).

(** [atan2f] of two numbers is a binary32 number from minus pi to pi. *)
Definition atan2f_range_contract
  (atan2f : Float32.float -> Float32.float -> Float32.float) : Prop :=
  forall b a, Float32.is_nan b = false -> Float32.is_nan a = false ->
    valid_binary Float32.prec Float32.emax (atan2f b a) = true
    /\ SFleb (SFopp pi_f) (atan2f b a) = true
    /\ SFleb (atan2f b a) pi_f = true.

(** *** Instances of the library functions

    An insertion sort, which meets [sort_contract], and a coarse [atan2f]
    that answers with the middle of the quadrant or the axis its argument
    lies on: enough to run the algorithm on concrete inputs. *)

Fixpoint insert (cmp : Z -> Z -> bool) (a : Z) (l : list Z) : list Z :=
  match l with
  | [] => [a]
  | b :: l' => if cmp a b then a :: l else b :: insert cmp a l'
  end.

Definition insertion_sort (cmp : Z -> Z -> bool) (l : list Z) : list Z :=
  fold_right (insert cmp) [] l.

(** The sign of a number: [Lt] below zero, [Eq] at zero, [Gt] above;
    [None] for a NaN. *)
Definition signOf (f : Float32.float) : option comparison :=
  SFcompare f Float32.zero.

(** [k] times pi / 4, in binary32. *)
Definition quarterPi (k : Z) : Float32.float :=
  Float32.div (Float32.mul (Float32.of_int k) (Float32.of_double Float32.M_PI))
              (Float32.of_int 4).

Definition atan2f_coarse (b a : Float32.float) : Float32.float :=
  match signOf b, signOf a with
  | Some Eq, Some Lt => quarterPi 4
  | Some Eq, Some _ => Float32.zero
  | Some Gt, Some Gt => quarterPi 1
  | Some Gt, Some Eq => quarterPi 2
  | Some Gt, Some Lt => quarterPi 3
  | Some Lt, Some Gt => quarterPi (-1)
  | Some Lt, Some Eq => quarterPi (-2)
  | Some Lt, Some Lt => quarterPi (-3)
  | _, _ => S754_nan
  end.

Section Triangulation.

(** [atan2f] of the C library. *)
Variable atan2f : Float32.float -> Float32.float -> Float32.float.

(** [std::sort] on a [std::vector<int>] with a comparison function. *)
Variable std_sort : (Z -> Z -> bool) -> list Z -> list Z.

(** The angle of [m_Vertices[indice] - point], moved to the non-negative
    side. *)
Definition polygonAngle (vs : list Vector2) (point : Vector2) (indice : Z)
  : Float32.float :=
  let vector := Vector2_sub (vertexAt vs indice) point in
  normalizeAngle
    (atan2f (Float32.of_int (y vector)) (Float32.of_int (x vector))).

(** The comparison function handed to [std::sort]. *)
Definition polygonLess (vs : list Vector2) (point : Vector2)
  (indice0 indice1 : Z) : bool :=
  Float32.ltb (polygonAngle vs point indice0) (polygonAngle vs point indice1).

Definition AddPoint (point : Vector2) (s : DelaunayTriangulation)
  : DelaunayTriangulation :=
  let '(newIndice, s) := AddVertex point s in
  let '(s, intersectingPolygon) :=
    scanLoop newIndice (length (m_Triangles s)) (s, []) in
  let intersectingPolygon :=
    std_sort (polygonLess (m_Vertices s) point) intersectingPolygon in
  fanLoop intersectingPolygon newIndice (length intersectingPolygon) 0%nat s.

(** The point of a room: [room.GetPosition() + room.GetSize() / 2]. *)
Definition roomCenter (room : DungeonRoom) : Vector2 :=
  Vector2_add (GetPosition room) (Vector2_div (GetSize room) 2).

Definition Triangulate (screenSize : Z) (rooms : list DungeonRoom)
  (s : DelaunayTriangulation) : DelaunayTriangulation :=
  let s := Clear s in
  let s := StartTriangulation screenSize s in
  let s := fold_left (fun s room => AddPoint (roomCenter room) s) rooms s in
  FinishTriangulation s.

(** The states of one [AddPoint]: after [AddVertex], through the first
    loop, through the last loop. *)
Definition AddPointTrace (point : Vector2) (s : DelaunayTriangulation)
  : list DelaunayTriangulation :=
  let '(newIndice, s) := AddVertex point s in
  let scanned := scanTrace newIndice (length (m_Triangles s)) (s, []) in
  let '(s, intersectingPolygon) :=
    scanLoop newIndice (length (m_Triangles s)) (s, []) in
  let intersectingPolygon :=
    std_sort (polygonLess (m_Vertices s) point) intersectingPolygon in
  map fst scanned
  ++ fanTrace intersectingPolygon newIndice (length intersectingPolygon)
       0%nat s.

Fixpoint pointsTrace (rooms : list DungeonRoom) (s : DelaunayTriangulation)
  : list DelaunayTriangulation :=
  match rooms with
  | [] => finishTrace (length (m_Triangles s)) s
  | room :: rooms' =>
      AddPointTrace (roomCenter room) s
      ++ pointsTrace rooms' (AddPoint (roomCenter room) s)
  end.

(** The states of a run of [Triangulate], from the seeded one on. *)
Definition TriangulateTrace (screenSize : Z) (rooms : list DungeonRoom)
  (s : DelaunayTriangulation) : list DelaunayTriangulation :=
  let s := StartTriangulation screenSize (Clear s) in
  s :: pointsTrace rooms s.

End Triangulation.

(** * Facts *)

(** ** 32-bit arithmetic *)

Module Int32Facts.
Import Int32.

Lemma wrap_range (z : Z) : in_range (wrap z).
Proof.
  unfold in_range, wrap, min_signed, max_signed.
  pose proof (Z.mod_pos_bound (z + 2 ^ 31) (2 ^ 32) ltac:(lia)). lia.
Qed.

Lemma wrap_small (z : Z) : in_range z -> wrap z = z.
Proof.
  unfold in_range, wrap, min_signed, max_signed. intros H.
  rewrite Z.mod_small by lia. lia.
Qed.

Lemma wrap_eqm (z : Z) : wrap z mod 2 ^ 32 = z mod 2 ^ 32.
Proof.
  unfold wrap.
  rewrite <- Zminus_mod_idemp_l, Z.mod_mod by lia.
  rewrite Zminus_mod_idemp_l. f_equal. lia.
Qed.

Lemma wrap_congr (a b : Z) : a mod 2 ^ 32 = b mod 2 ^ 32 -> wrap a = wrap b.
Proof.
  intros H. unfold wrap.
  rewrite <- (Zplus_mod_idemp_l a), <- (Zplus_mod_idemp_l b), H. reflexivity.
Qed.

Lemma wrap_add_l (a b : Z) : wrap (wrap a + b) = wrap (a + b).
Proof.
  apply wrap_congr.
  rewrite <- Zplus_mod_idemp_l, wrap_eqm, Zplus_mod_idemp_l. reflexivity.
Qed.

Lemma wrap_add_r (a b : Z) : wrap (a + wrap b) = wrap (a + b).
Proof. rewrite Z.add_comm, wrap_add_l, Z.add_comm. reflexivity. Qed.

Lemma wrap_sub_l (a b : Z) : wrap (wrap a - b) = wrap (a - b).
Proof.
  apply wrap_congr.
  rewrite <- Zminus_mod_idemp_l, wrap_eqm, Zminus_mod_idemp_l. reflexivity.
Qed.

Lemma wrap_sub_r (a b : Z) : wrap (a - wrap b) = wrap (a - b).
Proof.
  apply wrap_congr.
  rewrite <- Zminus_mod_idemp_r, wrap_eqm, Zminus_mod_idemp_r. reflexivity.
Qed.

Lemma wrap_mul_l (a b : Z) : wrap (wrap a * b) = wrap (a * b).
Proof.
  apply wrap_congr.
  rewrite <- Zmult_mod_idemp_l, wrap_eqm, Zmult_mod_idemp_l. reflexivity.
Qed.

Lemma wrap_mul_r (a b : Z) : wrap (a * wrap b) = wrap (a * b).
Proof. rewrite Z.mul_comm, wrap_mul_l, Z.mul_comm. reflexivity. Qed.

End Int32Facts.

Create Rewrite HintDb int32.
#[global] Hint Rewrite Int32Facts.wrap_add_l Int32Facts.wrap_add_r Int32Facts.wrap_sub_l
  Int32Facts.wrap_sub_r Int32Facts.wrap_mul_l Int32Facts.wrap_mul_r : int32.


(** ** DataTypes.h *)

Lemma Vector2_eq_spec (a b : Vector2) : Vector2_eq a b = true <-> a = b.
Proof.
  destruct a as [ax ay], b as [bx b_y]. unfold Vector2_eq; simpl.
  rewrite andb_true_iff, !Z.eqb_eq. split.
  - intros [-> ->]. reflexivity.
  - intros H. injection H as -> ->. auto.
Qed.

Lemma DistanceSqr_wrap (a b : Vector2) :
  DistanceSqr a b
  = Int32.wrap ((x b - x a) * (x b - x a) + (y b - y a) * y b - y a).
Proof.
  unfold DistanceSqr, Int32.add, Int32.sub, Int32.mul.
  autorewrite with int32.
  rewrite <- (Int32Facts.wrap_sub_l (_ + _)).
  rewrite Int32Facts.wrap_add_l, Int32Facts.wrap_add_r, Int32Facts.wrap_sub_l. reflexivity.
Qed.

(** Without overflow the wrap-around disappears. *)
Lemma DistanceSqr_exact (a b : Vector2) :
  Int32.in_range ((x b - x a) * (x b - x a) + (y b - y a) * y b - y a) ->
  DistanceSqr a b = (x b - x a) * (x b - x a) + (y b - y a) * y b - y a.
Proof. intros H. rewrite DistanceSqr_wrap. apply Int32Facts.wrap_small, H. Qed.

(** For edges with two different endpoints [operator==] is equality of the
    unordered pairs. *)
Lemma Edge_eq_nondegenerate (e other : Edge) :
  p0 e <> p1 e -> p0 other <> p1 other ->
  (Edge_eq e other = true <-> same_endpoints e other).
Proof.
  intros He Ho. unfold Edge_eq, same_endpoints.
  rewrite andb_true_iff, !orb_true_iff, !Vector2_eq_spec. split.
  - intros [[A | A] [B | B]]; auto; congruence.
  - intros [[A B] | [A B]]; auto.
Qed.


(** C9 (the code departs from it): [operator==] is not the equality of
    unordered endpoint pairs, and is not symmetric.  The edge from (0,0) to
    (0,0) compares equal to the edge from (0,0) to (1,0), which has other
    endpoints, while the second does not compare equal to the first. *)
Theorem Edge_eq_not_symmetric :
  Edge_eq (mkEdge (mkVector2 0 0) (mkVector2 0 0))
          (mkEdge (mkVector2 0 0) (mkVector2 1 0)) = true
  /\ Edge_eq (mkEdge (mkVector2 0 0) (mkVector2 1 0))
             (mkEdge (mkVector2 0 0) (mkVector2 0 0)) = false
  /\ ~ same_endpoints (mkEdge (mkVector2 0 0) (mkVector2 0 0))
                      (mkEdge (mkVector2 0 0) (mkVector2 1 0)).
Proof.
  repeat split; try reflexivity.
  unfold same_endpoints; simpl. intros [[_ H] | [H _]]; discriminate H.
Qed.

(** C10: [a.DistanceSqr(b)] is [(b.x - a.x)^2 + (b.y - a.y) * b.y - a.y]
    (in [int] arithmetic: modulo 2^32, and exactly when that number is an
    [int]); it differs from the squared Euclidean distance, and
    [operator<] on edges compares this quantity, so that an edge can be
    less than a shorter one. *)
Theorem DistanceSqr_is_not_squared_distance :
  (forall a b,
      DistanceSqr a b
      = Int32.wrap ((x b - x a) * (x b - x a) + (y b - y a) * y b - y a)
      /\ (Int32.in_range
            ((x b - x a) * (x b - x a) + (y b - y a) * y b - y a) ->
          DistanceSqr a b
          = (x b - x a) * (x b - x a) + (y b - y a) * y b - y a))
  /\ DistanceSqr (mkVector2 0 3) (mkVector2 0 0) = -3
  /\ euclidSqr (mkVector2 0 3) (mkVector2 0 0) = 9
  /\ (forall e other,
        Edge_lt e other
        = (DistanceSqr (p0 e) (p1 e) <? DistanceSqr (p0 other) (p1 other)))
  /\ Edge_lt (mkEdge (mkVector2 0 3) (mkVector2 0 0))
             (mkEdge (mkVector2 0 0) (mkVector2 1 0)) = true
  /\ euclidSqr (mkVector2 0 0) (mkVector2 1 0)
     < euclidSqr (mkVector2 0 3) (mkVector2 0 0).
Proof.
  split; [| repeat split; reflexivity].
  intros a b. split.
  - apply DistanceSqr_wrap.
  - apply DistanceSqr_exact.
Qed.

(** C10 at the points (0,3) and (0,0): the number is an [int] there, and
    the value is -3. *)
Lemma DistanceSqr_is_not_squared_distance_witness :
  DistanceSqr (mkVector2 0 3) (mkVector2 0 0)
  = (0 - 0) * (0 - 0) + (0 - 3) * 0 - 3.
Proof.
  apply (proj2 (proj1 DistanceSqr_is_not_squared_distance
                  (mkVector2 0 3) (mkVector2 0 0))).
  unfold Int32.in_range, Int32.min_signed, Int32.max_signed; simpl; lia.
Defined.

(** ** Removal by swap *)

Section SwapRemove.

Let d : Triangle := mkTriangle 0 0 0.

Lemma skipn_length_app {A : Type} (a l : list A) : skipn (length a) (a ++ l) = l.
Proof. induction a as [| u a IH]; simpl; auto. Qed.

Lemma firstn_length_app {A : Type} (a l : list A) :
  firstn (length a) (a ++ l) = a.
Proof. induction a as [| u a IH]; simpl; [destruct l |]; congruence. Qed.

Lemma last_app_cons {A : Type} (a : list A) (t : A) (b : list A) (u : A) :
  last (a ++ t :: b) u = last (t :: b) u.
Proof.
  induction a as [| v a IH]; [reflexivity |].
  change ((v :: a) ++ t :: b) with (v :: (a ++ t :: b)).
  rewrite <- IH. simpl. destruct (a ++ t :: b) eqn:E; [| reflexivity].
  destruct a; discriminate E.
Qed.

(** Removing at the position after [a], in a sequence [a ++ t :: b]:
    [a] stays, and what follows is [b] without its last triangle and with
    that last triangle first. *)
Lemma swapRemove_split (a b : list Triangle) (t : Triangle) :
  swapRemove (length a) (a ++ t :: b) = a ++ removelast (last (t :: b) d :: b).
Proof.
  unfold swapRemove.
  rewrite firstn_length_app.
  replace (skipn (S (length a)) (a ++ t :: b)) with b.
  2:{ change (a ++ t :: b) with (a ++ [t] ++ b). rewrite app_assoc.
      replace (S (length a)) with (length (a ++ [t]))
        by (rewrite length_app; simpl; lia).
      rewrite skipn_length_app. reflexivity. }
  rewrite last_app_cons. apply removelast_app. discriminate.
Qed.

Lemma swapped_tail_incl (t : Triangle) (b : list Triangle) :
  incl (removelast (last (t :: b) d :: b)) b.
Proof.
  destruct b as [| u b'] using rev_ind.
  - simpl. intros v [].
  - clear IHb'. change (t :: b' ++ [u]) with ((t :: b') ++ [u]).
    rewrite last_last.
    change (u :: b' ++ [u]) with ((u :: b') ++ [u]).
    rewrite removelast_last.
    intros v [<- | Hv]; apply in_or_app; simpl; auto.
Qed.

Lemma swapped_tail_length (t : Triangle) (b : list Triangle) :
  length (removelast (last (t :: b) d :: b)) = length b.
Proof.
  destruct b as [| u b'] using rev_ind; [reflexivity |].
  change (last (t :: b' ++ [u]) d :: b' ++ [u])
    with ((last (t :: b' ++ [u]) d :: b') ++ [u]).
  rewrite removelast_last, length_app. simpl. lia.
Qed.

Lemma swapRemove_incl (index : nat) (ts : list Triangle) :
  incl (swapRemove index ts) ts.
Proof.
  destruct (Nat.lt_ge_cases index (length ts)) as [Hlt | Hge].
  - destruct (nth_split ts d Hlt) as (a & b & E & Ha).
    rewrite E at 1. rewrite <- Ha, swapRemove_split.
    intros v Hv. rewrite E. apply in_app_or in Hv. apply in_or_app.
    destruct Hv as [Hv | Hv]; [auto | right; right].
    exact (swapped_tail_incl _ _ v Hv).
  - unfold swapRemove.
    rewrite firstn_all2, skipn_all2 by lia.
    rewrite removelast_last. apply incl_refl.
Qed.

Lemma swapRemove_length (index : nat) (ts : list Triangle) :
  (index < length ts)%nat ->
  length (swapRemove index ts) = (length ts - 1)%nat.
Proof.
  intros Hlt. destruct (nth_split ts d Hlt) as (a & b & E & Ha).
  rewrite E. rewrite <- Ha at 1.
  rewrite swapRemove_split, !length_app, swapped_tail_length. simpl. lia.
Qed.

End SwapRemove.

(** ** The loop of FinishTriangulation *)

Lemma touchesSuper_spec (t : Triangle) :
  touchesSuper t = true <-> referencesSuper t.
Proof.
  unfold touchesSuper, referencesSuper. rewrite existsb_exists. split.
  - intros (i & Hi & H). exists i.
    rewrite !orb_true_iff, !Z.eqb_eq in H.
    split; [simpl in Hi; lia | tauto].
  - intros (i & Hi & H). exists i.
    rewrite !orb_true_iff, !Z.eqb_eq.
    split; [simpl; lia | tauto].
Qed.

Lemma finishStep_vertices (index : nat) (s : DelaunayTriangulation) :
  m_Vertices (finishStep index s) = m_Vertices s.
Proof. unfold finishStep. destruct (touchesSuper _); reflexivity. Qed.

Lemma finishStep_incl (index : nat) (s : DelaunayTriangulation) :
  incl (m_Triangles (finishStep index s)) (m_Triangles s).
Proof.
  unfold finishStep. destruct (touchesSuper _); simpl.
  - apply swapRemove_incl.
  - apply incl_refl.
Qed.

Lemma finishStep_length (index : nat) (s : DelaunayTriangulation) :
  (index < length (m_Triangles s))%nat ->
  (index <= length (m_Triangles (finishStep index s)))%nat.
Proof.
  intros H. unfold finishStep. destruct (touchesSuper _); simpl; [| lia].
  rewrite swapRemove_length; lia.
Qed.

(** From position [n] on, the triangles were visited and kept: none of them
    names a super-triangle vertex.  The loop extends this to the whole
    sequence. *)
Lemma finishLoop_clean (n : nat) : forall s,
  (n <= length (m_Triangles s))%nat ->
  Forall (fun t => touchesSuper t = false) (skipn n (m_Triangles s)) ->
  Forall (fun t => touchesSuper t = false) (m_Triangles (finishLoop n s)).
Proof.
  induction n as [| i IH]; intros s Hn Hkept; [exact Hkept |].
  cbn [finishLoop]. destruct s as [vs ts]; cbn [m_Triangles] in *.
  destruct (nth_split ts (mkTriangle 0 0 0) Hn) as (a & b & E & Ha).
  assert (Hb : skipn (S i) ts = b).
  { rewrite E. change (a ++ nth i ts (mkTriangle 0 0 0) :: b)
      with (a ++ [nth i ts (mkTriangle 0 0 0)] ++ b).
    rewrite app_assoc.
    replace (S i) with (length (a ++ [nth i ts (mkTriangle 0 0 0)]))
      by (rewrite length_app; simpl; lia).
    apply skipn_length_app. }
  rewrite Hb in Hkept.
  apply IH.
  - apply (finishStep_length i (mkDelaunayTriangulation vs ts)). exact Hn.
  - unfold finishStep, triangleAt; simpl.
    destruct (touchesSuper (nth i ts (mkTriangle 0 0 0))) eqn:Ht; simpl.
    + rewrite E at 1. rewrite <- Ha at 1. rewrite <- Ha at 1.
      rewrite swapRemove_split, skipn_length_app.
      eapply incl_Forall; [apply swapped_tail_incl | exact Hkept].
    + rewrite E at 1. rewrite <- Ha at 1. rewrite skipn_length_app.
      constructor; [exact Ht | exact Hkept].
Qed.

Lemma FinishTriangulation_clean (s : DelaunayTriangulation) :
  Forall (fun t => ~ referencesSuper t) (m_Triangles (FinishTriangulation s)).
Proof.
  unfold FinishTriangulation.
  eapply Forall_impl; [| apply finishLoop_clean].
  - intros t Ht. rewrite <- touchesSuper_spec, Ht. discriminate.
  - apply Nat.le_refl.
  - rewrite skipn_all. constructor.
Qed.

Lemma finishLoop_vertices (n : nat) : forall s,
  m_Vertices (finishLoop n s) = m_Vertices s.
Proof.
  induction n as [| i IH]; intros s; [reflexivity |].
  simpl. rewrite IH. apply finishStep_vertices.
Qed.

Lemma finishLoop_incl (n : nat) : forall s,
  incl (m_Triangles (finishLoop n s)) (m_Triangles s).
Proof.
  induction n as [| i IH]; intros s; [apply incl_refl |].
  simpl. eapply incl_tran; [apply IH | apply finishStep_incl].
Qed.

(** ** The first loop of AddPoint *)

Lemma markPresent_fold (t : Triangle) (poly : list Z) : forall hf hs ht,
  fold_left (markPresent t) poly (hf, hs, ht)
  = (hf || existsb (fun v => v =? first t) poly,
     hs || existsb (fun v => v =? second t) poly,
     ht || existsb (fun v => v =? third t) poly).
Proof.
  induction poly as [| v poly IH]; intros hf hs ht; simpl.
  - rewrite !orb_false_r. reflexivity.
  - rewrite IH.
    destruct (v =? first t), (v =? second t), (v =? third t), hf, hs, ht;
      reflexivity.
Qed.

(** The polygon grows at its end by the indices of [t] it does not hold
    yet, in the order first, second, third. *)
Lemma collectVertices_eq (poly : list Z) (t : Triangle) :
  collectVertices poly t
  = poly
    ++ (if existsb (fun v => v =? first t) poly then [] else [first t])
    ++ (if existsb (fun v => v =? second t) poly then [] else [second t])
    ++ (if existsb (fun v => v =? third t) poly then [] else [third t]).
Proof.
  unfold collectVertices. destruct poly as [| u poly']; [reflexivity |].
  rewrite markPresent_fold. cbn [orb].
  destruct (existsb (fun v => v =? first t) (u :: poly')),
           (existsb (fun v => v =? second t) (u :: poly')),
           (existsb (fun v => v =? third t) (u :: poly'));
    cbn [app]; rewrite <- ?app_assoc, ?app_nil_r; reflexivity.
Qed.

Lemma existsb_eqb_false (a : Z) (l : list Z) :
  existsb (fun v => v =? a) l = false -> ~ In a l.
Proof.
  intros H Hin.
  assert (E : existsb (fun v => v =? a) l = true).
  { apply existsb_exists. exists a. split; [exact Hin | apply Z.eqb_refl]. }
  congruence.
Qed.

Lemma collectVertices_NoDup (poly : list Z) (t : Triangle) :
  distinctIndices t -> NoDup poly -> NoDup (collectVertices poly t).
Proof.
  intros (H12 & H13 & H23) Hpoly. rewrite collectVertices_eq.
  destruct (existsb (fun v => v =? first t) poly) eqn:E1,
           (existsb (fun v => v =? second t) poly) eqn:E2,
           (existsb (fun v => v =? third t) poly) eqn:E3;
    try apply existsb_eqb_false in E1;
    try apply existsb_eqb_false in E2;
    try apply existsb_eqb_false in E3;
    cbn [app]; rewrite ?app_nil_r; try assumption;
    (apply NoDup_app;
     [ assumption
     | repeat constructor; simpl; intuition congruence
     | intros a Ha Hin; simpl in Hin; intuition congruence ]).
Qed.

Lemma collectVertices_length (poly : list Z) (t : Triangle) :
  length poly <> 1%nat -> length (collectVertices poly t) <> 1%nat.
Proof.
  intros H. rewrite collectVertices_eq.
  destruct poly as [| u [| w poly']].
  - simpl. discriminate.
  - contradiction H. reflexivity.
  - rewrite length_app. simpl. lia.
Qed.

Lemma collectVertices_Forall (P : Z -> Prop) (poly : list Z) (t : Triangle) :
  P (first t) -> P (second t) -> P (third t) ->
  Forall P poly -> Forall P (collectVertices poly t).
Proof.
  intros H1 H2 H3 Hpoly. rewrite collectVertices_eq.
  repeat (apply Forall_app; split); try assumption;
    match goal with |- Forall _ (if ?b then _ else _) => destruct b end;
    repeat constructor; assumption.
Qed.

Lemma scanStep_vertices (newIndice : Z) (index : nat)
  (st : DelaunayTriangulation * list Z) :
  m_Vertices (fst (scanStep newIndice index st)) = m_Vertices (fst st).
Proof.
  destruct st as [s poly]. unfold scanStep.
  destruct (negb _); reflexivity.
Qed.

Lemma scanStep_incl (newIndice : Z) (index : nat)
  (st : DelaunayTriangulation * list Z) :
  incl (m_Triangles (fst (scanStep newIndice index st))) (m_Triangles (fst st)).
Proof.
  destruct st as [s poly]. unfold scanStep.
  destruct (negb _); simpl; [apply incl_refl | apply swapRemove_incl].
Qed.

Lemma scanStep_length (newIndice : Z) (index : nat)
  (st : DelaunayTriangulation * list Z) :
  (index < length (m_Triangles (fst st)))%nat ->
  (index <= length (m_Triangles (fst (scanStep newIndice index st))))%nat.
Proof.
  destruct st as [s poly]. unfold scanStep. intros H.
  destruct (negb _); simpl in *; [lia |].
  rewrite swapRemove_length; lia.
Qed.

(** The polygon after a step: unchanged, or grown by the triangle at
    [index], which is one of the triangles in storage. *)
Lemma scanStep_polygon (newIndice : Z) (index : nat)
  (st : DelaunayTriangulation * list Z) :
  (index < length (m_Triangles (fst st)))%nat ->
  snd (scanStep newIndice index st) = snd st
  \/ exists t, In t (m_Triangles (fst st))
               /\ snd (scanStep newIndice index st) = collectVertices (snd st) t.
Proof.
  destruct st as [s poly]. unfold scanStep. intros H.
  destruct (negb _); simpl in *; [left; reflexivity | right].
  exists (triangleAt (m_Triangles s) index). split; [| reflexivity].
  apply nth_In, H.
Qed.

(** What holds before the loop and is kept by every step at a position in
    range holds in every state the loop passes. *)
Lemma scanTrace_invariant (I : DelaunayTriangulation * list Z -> Prop)
  (newIndice : Z) :
  (forall i st, (i < length (m_Triangles (fst st)))%nat ->
                I st -> I (scanStep newIndice i st)) ->
  forall n st, (n <= length (m_Triangles (fst st)))%nat ->
               I st -> Forall I (scanTrace newIndice n st).
Proof.
  intros Hstep. induction n as [| i IH]; intros st Hn Hst; simpl.
  - constructor; [exact Hst | constructor].
  - constructor; [exact Hst |].
    apply IH; [apply scanStep_length, Hn | apply Hstep; assumption].
Qed.

Lemma scanLoop_in_trace (newIndice : Z) (n : nat) : forall st,
  In (scanLoop newIndice n st) (scanTrace newIndice n st).
Proof.
  induction n as [| i IH]; intros st; simpl; [left; reflexivity |].
  right. apply IH.
Qed.

Lemma scanLoop_last (newIndice : Z) (n : nat) : forall st d,
  last (scanTrace newIndice n st) d = scanLoop newIndice n st.
Proof.
  induction n as [| i IH]; intros st d; [reflexivity |].
  cbn [scanTrace scanLoop]. rewrite <- (IH _ d).
  generalize (scanStep newIndice i st); intros st'.
  destruct i; reflexivity.
Qed.

(** ** The last loop of AddPoint *)

Lemma fanLoop_vertices (polygon : list Z) (newIndice : Z) (count : nat) :
  forall i s, m_Vertices (fanLoop polygon newIndice count i s) = m_Vertices s.
Proof.
  induction count as [| c IH]; intros i s; [reflexivity |].
  cbn [fanLoop]. rewrite IH. reflexivity.
Qed.

(** The loop appends one triangle for each of its positions, in order. *)
Lemma fanLoop_triangles (polygon : list Z) (newIndice : Z) (count : nat) :
  forall i s,
    m_Triangles (fanLoop polygon newIndice count i s)
    = m_Triangles s ++ map (fanTriangle polygon newIndice) (seq i count).
Proof.
  induction count as [| c IH]; intros i s.
  - simpl. rewrite app_nil_r. reflexivity.
  - cbn [fanLoop seq map]. rewrite IH. cbn [AddTriangle m_Triangles].
    rewrite <- app_assoc. reflexivity.
Qed.

Lemma fanTrace_invariant (I : DelaunayTriangulation -> Prop)
  (polygon : list Z) (newIndice : Z) (count : nat) :
  forall i s,
    (forall j s', (i <= j < i + count)%nat -> I s' ->
       I (AddTriangle (first (fanTriangle polygon newIndice j))
                      (second (fanTriangle polygon newIndice j))
                      (third (fanTriangle polygon newIndice j)) s')) ->
    I s -> Forall I (fanTrace polygon newIndice count i s).
Proof.
  induction count as [| c IH]; intros i s Hstep Hs; cbn [fanTrace].
  - constructor; [exact Hs | constructor].
  - constructor; [exact Hs |]. apply IH.
    + intros j s' Hj. apply Hstep. lia.
    + apply Hstep; [lia | exact Hs].
Qed.

Lemma fanLoop_last (polygon : list Z) (newIndice : Z) (count : nat) :
  forall i s d,
    last (fanTrace polygon newIndice count i s) d
    = fanLoop polygon newIndice count i s.
Proof.
  induction count as [| c IH]; intros i s d; [reflexivity |].
  cbn [fanTrace fanLoop]. rewrite <- (IH _ _ d).
  destruct c; reflexivity.
Qed.

Lemma wf_triangle_mono (n m : nat) (t : Triangle) :
  (n <= m)%nat -> wf_triangle n t -> wf_triangle m t.
Proof. unfold wf_triangle, validIndices. intros Hle (Hd & Hv). split; [exact Hd | lia]. Qed.

Lemma fanTriangle_wf (nv : nat) (polygon : list Z) (j : nat) :
  polygonInv nv polygon -> (j < length polygon)%nat ->
  wf_triangle (S nv) (fanTriangle polygon (Z.of_nat nv) j).
Proof.
  intros (Hnd & Hlen & Hall) Hj.
  assert (Hk : ((j + 1) mod length polygon < length polygon)%nat)
    by (apply Nat.mod_upper_bound; lia).
  rewrite Forall_forall in Hall.
  pose proof (Hall _ (nth_In polygon 0 Hj)) as H1.
  pose proof (Hall _ (nth_In polygon 0 Hk)) as H2.
  unfold wf_triangle, distinctIndices, validIndices, fanTriangle; simpl.
  repeat split; try lia.
  intros E. apply (proj1 (NoDup_nth polygon 0) Hnd) in E; [| lia | lia].
  destruct (Nat.lt_ge_cases (j + 1) (length polygon)) as [Hlt | Hge].
  - rewrite Nat.mod_small in E by exact Hlt. lia.
  - assert (E' : (j + 1 = length polygon)%nat) by lia.
    rewrite E', Nat.Div0.mod_same in E. lia.
Qed.

(** ** The loop of FinishTriangulation, state by state *)

Lemma finishTrace_invariant (I : DelaunayTriangulation -> Prop) :
  (forall i s, I s -> I (finishStep i s)) ->
  forall n s, I s -> Forall I (finishTrace n s).
Proof.
  intros Hstep. induction n as [| i IH]; intros s Hs; cbn [finishTrace].
  - constructor; [exact Hs | constructor].
  - constructor; [exact Hs |]. apply IH, Hstep, Hs.
Qed.

Lemma finishLoop_last (n : nat) : forall s d,
  last (finishTrace n s) d = finishLoop n s.
Proof.
  induction n as [| i IH]; intros s d; [reflexivity |].
  cbn [finishTrace finishLoop]. rewrite <- (IH _ d).
  destruct i; reflexivity.
Qed.

Lemma finishStep_wf (index : nat) (s : DelaunayTriangulation) :
  wf_state s -> wf_state (finishStep index s).
Proof.
  unfold wf_state. intros H. rewrite finishStep_vertices.
  eapply incl_Forall; [apply finishStep_incl | exact H].
Qed.

(** ** Seeding *)

Lemma StartTriangulation_Clear (screenSize : Z) (s : DelaunayTriangulation) :
  StartTriangulation screenSize (Clear s)
  = mkDelaunayTriangulation
      [mkVector2 0 0; mkVector2 (-500) 2500; mkVector2 2500 (-500)]
      [mkTriangle 0 1 2].
Proof. reflexivity. Qed.

Lemma StartTriangulation_wf (screenSize : Z) (s : DelaunayTriangulation) :
  wf_state (StartTriangulation screenSize (Clear s)).
Proof.
  rewrite StartTriangulation_Clear. unfold wf_state; simpl.
  constructor; [| constructor].
  unfold wf_triangle, distinctIndices, validIndices; simpl. lia.
Qed.

(** ** binary32: results that are numbers, and the order *)

Module Float32Facts.
Import Float32.

Lemma shr_1_nonneg (mrs : shr_record) : 0 <= shr_m mrs -> 0 <= shr_m (shr_1 mrs).
Proof.
  destruct mrs as [m r s]. destruct m as [| p | p]; simpl; intros H.
  - lia.
  - destruct p; simpl; lia.
  - lia.
Qed.

Lemma iter_shr_1_nonneg (p : positive) : forall mrs,
  0 <= shr_m mrs -> 0 <= shr_m (iter_pos shr_1 p mrs).
Proof.
  induction p as [p IH | p IH |]; intros mrs H; simpl.
  - apply IH, IH, shr_1_nonneg, H.
  - apply IH, IH, H.
  - apply shr_1_nonneg, H.
Qed.

Lemma shr_fexp_nonneg (prec emax m e : Z) (l : location) :
  0 <= m -> 0 <= shr_m (fst (shr_fexp prec emax m e l)).
Proof.
  intros H. unfold shr_fexp, shr.
  assert (H0 : 0 <= shr_m (shr_record_of_loc m l))
    by (destruct l as [| []]; exact H).
  destruct (fexp prec emax (Zdigits2 m + e) - e) as [| p | p]; simpl;
    auto using iter_shr_1_nonneg.
Qed.

Lemma round_nearest_even_nonneg (m : Z) (l : location) :
  0 <= m -> 0 <= round_nearest_even m l.
Proof.
  intros H. destruct l as [| []]; simpl; try lia.
  destruct (Z.even m); lia.
Qed.

(** Rounding a non-negative mantissa gives a number. *)
Lemma binary_round_aux_not_nan (prec emax : Z) (sx : bool) (mx ex : Z)
  (lx : location) :
  0 <= mx -> is_nan (binary_round_aux prec emax sx mx ex lx) = false.
Proof.
  intros H. unfold binary_round_aux.
  pose proof (shr_fexp_nonneg prec emax mx ex lx H) as H1.
  destruct (shr_fexp prec emax mx ex lx) as [mrs' e']. simpl in H1.
  pose proof (shr_fexp_nonneg prec emax
                (round_nearest_even (shr_m mrs') (loc_of_shr_record mrs'))
                e' loc_Exact (round_nearest_even_nonneg _ _ H1)) as H2.
  destruct (shr_fexp prec emax _ e' loc_Exact) as [mrs'' e'']. simpl in H2.
  destruct (shr_m mrs'') as [| p | p]; try reflexivity.
  - destruct (e'' <=? emax - prec); reflexivity.
  - lia.
Qed.

Lemma binary_round_not_nan (prec emax : Z) (sx : bool) (mx : positive) (ex : Z) :
  is_nan (binary_round prec emax sx mx ex) = false.
Proof.
  unfold binary_round. destruct (shl_align _ _ _) as [mz ez].
  apply binary_round_aux_not_nan. lia.
Qed.

Lemma binary_normalize_not_nan (prec emax m e : Z) (szero : bool) :
  is_nan (binary_normalize prec emax m e szero) = false.
Proof.
  destruct m; simpl; auto using binary_round_not_nan.
Qed.

Lemma of_int_not_nan (i : Z) : is_nan (of_int i) = false.
Proof. apply binary_normalize_not_nan. Qed.

Lemma add_finite_not_nan (a : float) (s : bool) (m : positive) (e : Z) :
  is_nan a = false -> is_nan (add a (S754_finite s m e)) = false.
Proof.
  destruct a as [sa | sa | | sa ma ea]; intros H; try discriminate H;
    try reflexivity.
  unfold add, SFadd. apply binary_normalize_not_nan.
Qed.

Lemma ltb_lexlt (a b : float) :
  is_nan a = false -> is_nan b = false ->
  (ltb a b = true <-> lexlt (key a) (key b)).
Proof.
  unfold ltb, SFltb.
  destruct a as [sa | sa | | sa ma ea]; intros Ha; try discriminate Ha;
    destruct b as [sb | sb | | sb mb eb]; intros Hb; try discriminate Hb;
    try destruct sa; try destruct sb; simpl;
    try (split; [discriminate | lia]);
    try (split; [lia | reflexivity]);
    fold (Pos.compare ma mb);
    destruct (Z.compare_spec ea eb); destruct (Pos.compare_spec ma mb);
    simpl; split; intros; try discriminate; try reflexivity; try lia.
Qed.

(** Comparing numbers through [ltb] is a strict weak order. *)
Lemma ltb_strict_weak_order {A : Type} (f : A -> float) :
  (forall a, is_nan (f a) = false) ->
  strict_weak_order (fun a b => ltb (f a) (f b)).
Proof.
  intros Hf.
  assert (T : forall a b, ltb (f a) (f b) = true <-> lexlt (key (f a)) (key (f b)))
    by (intros; apply ltb_lexlt; apply Hf).
  assert (F : forall a b, ltb (f a) (f b) = false <-> ~ lexlt (key (f a)) (key (f b))).
  { intros a b. rewrite <- T. destruct (ltb (f a) (f b)); split; congruence. }
  split; [| split].
  - intros a. apply F. unfold lexlt. destruct (key (f a)) as [[a1 a2] a3]. lia.
  - intros a b c. rewrite !T. unfold lexlt.
    destruct (key (f a)) as [[a1 a2] a3], (key (f b)) as [[b1 b2] b3],
             (key (f c)) as [[c1 c2] c3]. lia.
  - intros a b c. rewrite !F. unfold lexlt.
    destruct (key (f a)) as [[a1 a2] a3], (key (f b)) as [[b1 b2] b3],
             (key (f c)) as [[c1 c2] c3]. lia.
Qed.

End Float32Facts.

(** ** The comparison function of the polygon sort *)

Lemma normalizeAngle_not_nan (angle : Float32.float) :
  Float32.is_nan angle = false -> Float32.is_nan (normalizeAngle angle) = false.
Proof.
  intros H. unfold normalizeAngle.
  destruct (Float32.ltb angle Float32.zero); [| exact H].
  change (Float32.mul (Float32.of_int 2) (Float32.of_double Float32.M_PI))
    with (S754_finite false 13176795 (-21)).
  apply Float32Facts.add_finite_not_nan, H.
Qed.

Lemma polygonLess_strict_weak_order
  (atan2f : Float32.float -> Float32.float -> Float32.float)
  (vs : list Vector2) (point : Vector2) :
  atan2f_contract atan2f -> strict_weak_order (polygonLess atan2f vs point).
Proof.
  intros Hatan. unfold polygonLess.
  apply (Float32Facts.ltb_strict_weak_order (polygonAngle atan2f vs point)).
  intros a. unfold polygonAngle.
  apply normalizeAngle_not_nan, Hatan; apply Float32Facts.of_int_not_nan.
Qed.

(** ** The instances meet the contracts *)

Lemma insert_Permutation (cmp : Z -> Z -> bool) (a : Z) (l : list Z) :
  Permutation (a :: l) (insert cmp a l).
Proof.
  induction l as [| b l IH]; simpl; [apply Permutation_refl |].
  destruct (cmp a b); [apply Permutation_refl |].
  eapply Permutation_trans; [apply perm_swap | apply perm_skip, IH].
Qed.

Lemma insert_StronglySorted (cmp : Z -> Z -> bool) (a : Z) (l : list Z) :
  strict_weak_order cmp ->
  StronglySorted (fun u v => cmp v u = false) l ->
  StronglySorted (fun u v => cmp v u = false) (insert cmp a l).
Proof.
  intros (Hirr & Htrans & _) Hl.
  induction Hl as [| b l Hl IH Hb]; simpl.
  - repeat constructor.
  - destruct (cmp a b) eqn:E.
    + constructor; [constructor; assumption |].
      constructor.
      * destruct (cmp b a) eqn:E'; [| reflexivity].
        rewrite <- (Hirr a). symmetry. eapply Htrans; eassumption.
      * rewrite Forall_forall in Hb |- *. intros v Hv.
        destruct (cmp v a) eqn:E'; [| reflexivity].
        rewrite <- (Hb v Hv). symmetry. eapply Htrans; eassumption.
    + constructor; [exact IH |].
      eapply Permutation_Forall; [apply insert_Permutation |].
      constructor; assumption.
Qed.

Lemma insertion_sort_contract : sort_contract insertion_sort.
Proof.
  intros cmp l Hcmp. unfold insertion_sort. split.
  - induction l as [| a l IH]; simpl; [constructor |].
    eapply Permutation_trans; [apply perm_skip, IH | apply insert_Permutation].
  - induction l as [| a l IH]; simpl; [constructor |].
    apply insert_StronglySorted; assumption.
Qed.

Lemma atan2f_coarse_contract : atan2f_contract atan2f_coarse.
Proof.
  intros b a Hb Ha. unfold atan2f_coarse, signOf.
  destruct b as [sb | sb | | sb mb eb]; try discriminate Hb;
    destruct a as [sa | sa | | sa ma ea]; try discriminate Ha;
    try destruct sb; try destruct sa; vm_compute; reflexivity.
Qed.

(** ** AddPoint keeps the triangles well formed *)

Lemma scanStep_scanInv (nv : nat) (newIndice : Z) (i : nat)
  (st : DelaunayTriangulation * list Z) :
  (i < length (m_Triangles (fst st)))%nat ->
  scanInv nv st -> scanInv nv (scanStep newIndice i st).
Proof.
  intros Hi (Hvs & Hts & Hnd & Hlen & Hall).
  unfold scanInv. rewrite scanStep_vertices. split; [exact Hvs |]. split.
  - eapply incl_Forall; [apply scanStep_incl | exact Hts].
  - destruct (scanStep_polygon newIndice i st Hi) as [-> | (t & Ht & ->)].
    + repeat split; assumption.
    + rewrite Forall_forall in Hts. destruct (Hts t Ht) as (Hd & Hv1 & Hv2 & Hv3).
      repeat split.
      * apply collectVertices_NoDup; assumption.
      * apply collectVertices_length; assumption.
      * apply collectVertices_Forall; assumption.
Qed.

Lemma scanInv_wf (nv : nat) (st : DelaunayTriangulation * list Z) :
  scanInv nv st -> wf_state (fst st).
Proof.
  intros (Hvs & Hts & _). unfold wf_state. rewrite Hvs.
  eapply Forall_impl; [| exact Hts].
  intros t. apply wf_triangle_mono. lia.
Qed.

Lemma polygonInv_Permutation (nv : nat) (l l' : list Z) :
  Permutation l l' -> polygonInv nv l -> polygonInv nv l'.
Proof.
  intros Hp (Hnd & Hlen & Hall). repeat split.
  - eapply Permutation_NoDup; eassumption.
  - rewrite <- (Permutation_length Hp). exact Hlen.
  - eapply Permutation_Forall; eassumption.
Qed.

Lemma last_app_nonempty {A : Type} (l l' : list A) (u : A) :
  l' <> [] -> last (l ++ l') u = last l' u.
Proof.
  intros H. destruct l' as [| v l'] using rev_ind; [contradiction H; reflexivity |].
  rewrite app_assoc, !last_last. reflexivity.
Qed.

Lemma scanTrace_nonempty (newIndice : Z) (n : nat)
  (st : DelaunayTriangulation * list Z) : scanTrace newIndice n st <> [].
Proof. destruct n; discriminate. Qed.

Lemma fanTrace_nonempty (polygon : list Z) (newIndice : Z) (count i : nat)
  (s : DelaunayTriangulation) : fanTrace polygon newIndice count i s <> [].
Proof. destruct count; discriminate. Qed.

Lemma finishTrace_nonempty (n : nat) (s : DelaunayTriangulation) :
  finishTrace n s <> [].
Proof. destruct n; discriminate. Qed.

Section TriangulationFacts.

Variable atan2f : Float32.float -> Float32.float -> Float32.float.
Variable std_sort : (Z -> Z -> bool) -> list Z -> list Z.

(** [AddPoint], step by step. *)
Lemma AddPoint_eq (point : Vector2) (s : DelaunayTriangulation) :
  AddPoint atan2f std_sort point s
  = let newIndice := Z.of_nat (length (m_Vertices s)) in
    let scanned :=
      scanLoop newIndice (length (m_Triangles s))
        (snd (AddVertex point s), []) in
    let boundary :=
      std_sort (polygonLess atan2f (m_Vertices (fst scanned)) point)
               (snd scanned) in
    fanLoop boundary newIndice (length boundary) 0%nat (fst scanned).
Proof.
  unfold AddPoint. cbn [AddVertex m_Triangles snd].
  destruct (scanLoop _ _ _) as [s' poly]. reflexivity.
Qed.

Lemma AddPointTrace_eq (point : Vector2) (s : DelaunayTriangulation) :
  AddPointTrace atan2f std_sort point s
  = let newIndice := Z.of_nat (length (m_Vertices s)) in
    let scanned :=
      scanLoop newIndice (length (m_Triangles s))
        (snd (AddVertex point s), []) in
    let boundary :=
      std_sort (polygonLess atan2f (m_Vertices (fst scanned)) point)
               (snd scanned) in
    map fst (scanTrace newIndice (length (m_Triangles s))
               (snd (AddVertex point s), []))
    ++ fanTrace boundary newIndice (length boundary) 0%nat (fst scanned).
Proof.
  unfold AddPointTrace. cbn [AddVertex m_Triangles snd].
  destruct (scanLoop _ _ _) as [s' poly]. reflexivity.
Qed.

(** The result of [AddPoint] is the last state of its trace. *)
Lemma AddPointTrace_last (point : Vector2) (s d : DelaunayTriangulation) :
  last (AddPointTrace atan2f std_sort point s) d
  = AddPoint atan2f std_sort point s.
Proof.
  rewrite AddPointTrace_eq, AddPoint_eq. cbv zeta.
  rewrite last_app_nonempty by apply fanTrace_nonempty.
  apply fanLoop_last.
Qed.

Lemma AddPoint_vertices (point : Vector2) (s : DelaunayTriangulation) :
  m_Vertices (AddPoint atan2f std_sort point s) = m_Vertices s ++ [point].
Proof.
  rewrite AddPoint_eq. cbv zeta. rewrite fanLoop_vertices.
  generalize (length (m_Triangles s)) at 1. intros n.
  assert (G : forall k st,
             m_Vertices (fst (scanLoop (Z.of_nat (length (m_Vertices s))) k st))
             = m_Vertices (fst st)).
  { induction k as [| k IH]; intros st; [reflexivity |].
    cbn [scanLoop]. rewrite IH. apply scanStep_vertices. }
  rewrite G. reflexivity.
Qed.

Lemma scan_scanInv (point : Vector2) (s : DelaunayTriangulation) :
  wf_state s ->
  Forall (scanInv (length (m_Vertices s)))
    (scanTrace (Z.of_nat (length (m_Vertices s))) (length (m_Triangles s))
       (snd (AddVertex point s), [])).
Proof.
  intros Hwf. apply scanTrace_invariant.
  - intros i st. apply scanStep_scanInv.
  - apply Nat.le_refl.
  - unfold scanInv, polygonInv; cbn [AddVertex fst snd m_Vertices m_Triangles].
    rewrite length_app. simpl. repeat split; try lia; try constructor.
    exact Hwf.
Qed.

Hypothesis atan2f_ok : atan2f_contract atan2f.
Hypothesis std_sort_ok : sort_contract std_sort.

Lemma std_sort_polygon (vs : list Vector2) (point : Vector2) (l : list Z) :
  Permutation l (std_sort (polygonLess atan2f vs point) l)
  /\ StronglySorted
       (fun a b => polygonLess atan2f vs point b a = false)
       (std_sort (polygonLess atan2f vs point) l).
Proof.
  apply std_sort_ok, polygonLess_strict_weak_order, atan2f_ok.
Qed.

Lemma AddPointTrace_inv (point : Vector2) (s : DelaunayTriangulation) :
  wf_state s ->
  Forall (fun s' => length (m_Vertices s') = S (length (m_Vertices s))
                    /\ wf_state s')
    (AddPointTrace atan2f std_sort point s).
Proof.
  intros Hwf. rewrite AddPointTrace_eq. cbv zeta.
  pose proof (scan_scanInv point s Hwf) as Hscan.
  set (nv := length (m_Vertices s)) in *.
  set (tr := scanTrace (Z.of_nat nv) (length (m_Triangles s))
               (snd (AddVertex point s), [])) in *.
  pose proof (scanLoop_in_trace (Z.of_nat nv) (length (m_Triangles s))
                (snd (AddVertex point s), [])) as Hin.
  fold tr in Hin.
  set (scanned := scanLoop (Z.of_nat nv) (length (m_Triangles s))
                    (snd (AddVertex point s), [])) in *.
  pose proof (proj1 (Forall_forall _ _) Hscan scanned Hin) as Hend.
  apply Forall_app. split.
  - apply Forall_map. eapply Forall_impl; [| exact Hscan].
    intros st Hst. split; [apply Hst | apply (scanInv_wf nv), Hst].
  - set (cmp := polygonLess atan2f (m_Vertices (fst scanned)) point).
    destruct (std_sort_polygon (m_Vertices (fst scanned)) point (snd scanned))
      as [Hperm _]. fold cmp in Hperm.
    destruct Hend as (Hvs & Hts & Hpoly).
    pose proof (polygonInv_Permutation nv _ _ Hperm Hpoly) as Hb.
    apply fanTrace_invariant.
    + intros j s' Hj [Hvs' Hwf']. split; [exact Hvs' |].
      unfold wf_state in *. cbn [AddTriangle m_Vertices m_Triangles].
      apply Forall_app. split; [exact Hwf' |].
      constructor; [| constructor]. rewrite Hvs'.
      apply (fanTriangle_wf nv _ j Hb). lia.
    + split; [exact Hvs |]. apply scanInv_wf with (nv := nv).
      exact (conj Hvs (conj Hts Hpoly)).
Qed.

Lemma AddPointTrace_wf (point : Vector2) (s : DelaunayTriangulation) :
  wf_state s -> Forall wf_state (AddPointTrace atan2f std_sort point s).
Proof.
  intros Hwf. eapply Forall_impl; [| apply AddPointTrace_inv, Hwf].
  intros s' [_ H]. exact H.
Qed.

Lemma AddPoint_wf (point : Vector2) (s : DelaunayTriangulation) :
  wf_state s -> wf_state (AddPoint atan2f std_sort point s).
Proof.
  intros Hwf. rewrite <- (AddPointTrace_last point s s).
  pose proof (AddPointTrace_wf point s Hwf) as H.
  rewrite Forall_forall in H. apply H.
  assert (Hne : AddPointTrace atan2f std_sort point s <> []).
  { rewrite AddPointTrace_eq. cbv zeta. intros E.
    apply app_eq_nil in E. destruct E as [_ E].
    exact (fanTrace_nonempty _ _ _ _ _ E). }
  destruct (exists_last Hne) as (l & a & ->).
  rewrite last_last. apply in_or_app. right. left. reflexivity.
Qed.

(** *** A whole run *)

Lemma points_vertices (rooms : list DungeonRoom) : forall s,
  m_Vertices
    (fold_left (fun s room => AddPoint atan2f std_sort (roomCenter room) s)
       rooms s)
  = m_Vertices s ++ map roomCenter rooms.
Proof.
  induction rooms as [| room rooms IH]; intros s; simpl.
  - rewrite app_nil_r. reflexivity.
  - rewrite IH, AddPoint_vertices, <- app_assoc. reflexivity.
Qed.

Lemma pointsTrace_nonempty (rooms : list DungeonRoom)
  (s : DelaunayTriangulation) : pointsTrace atan2f std_sort rooms s <> [].
Proof.
  destruct rooms as [| room rooms]; cbn [pointsTrace].
  - apply finishTrace_nonempty.
  - intros E. apply app_eq_nil in E. destruct E as [E _].
    rewrite AddPointTrace_eq in E. cbv zeta in E.
    apply app_eq_nil in E. destruct E as [_ E].
    exact (fanTrace_nonempty _ _ _ _ _ E).
Qed.

(** The trace of a run ends in the result of [Triangulate]. *)
Lemma pointsTrace_last (rooms : list DungeonRoom) : forall s d,
  last (pointsTrace atan2f std_sort rooms s) d
  = FinishTriangulation
      (fold_left (fun s room => AddPoint atan2f std_sort (roomCenter room) s)
         rooms s).
Proof.
  induction rooms as [| room rooms IH]; intros s d; cbn [pointsTrace fold_left].
  - apply finishLoop_last.
  - rewrite last_app_nonempty by apply pointsTrace_nonempty. apply IH.
Qed.

Lemma TriangulateTrace_last (screenSize : Z) (rooms : list DungeonRoom)
  (s d : DelaunayTriangulation) :
  last (TriangulateTrace atan2f std_sort screenSize rooms s) d
  = Triangulate atan2f std_sort screenSize rooms s.
Proof.
  unfold TriangulateTrace, Triangulate.
  change (?a :: ?l) with ([a] ++ l).
  rewrite last_app_nonempty by apply pointsTrace_nonempty.
  apply pointsTrace_last.
Qed.

(** In every state of a run that starts well formed the triangles are
    well formed, and the vertices are those of the start and at most one
    more for each room. *)
Lemma pointsTrace_inv (rooms : list DungeonRoom) : forall s,
  wf_state s ->
  Forall (fun s' => (length (m_Vertices s')
                     <= length (m_Vertices s) + length rooms)%nat
                    /\ wf_state s')
    (pointsTrace atan2f std_sort rooms s).
Proof.
  induction rooms as [| room rooms IH]; intros s Hwf; cbn [pointsTrace].
  - apply finishTrace_invariant.
    + intros i s' [Hn H]. rewrite finishStep_vertices.
      split; [exact Hn | apply finishStep_wf, H].
    + split; [simpl; lia | exact Hwf].
  - apply Forall_app. split.
    + eapply Forall_impl; [| apply AddPointTrace_inv, Hwf].
      intros s' [Hn H]. split; [simpl; lia | exact H].
    + eapply Forall_impl; [| apply IH, AddPoint_wf, Hwf].
      intros s' [Hn H]. split; [| exact H].
      rewrite AddPoint_vertices, length_app in Hn. simpl in *. lia.
Qed.

Lemma TriangulateTrace_inv (screenSize : Z) (rooms : list DungeonRoom)
  (s : DelaunayTriangulation) :
  Forall (fun s' => (length (m_Vertices s') <= 3 + length rooms)%nat
                    /\ wf_state s')
    (TriangulateTrace atan2f std_sort screenSize rooms s).
Proof.
  unfold TriangulateTrace. constructor.
  - split; [simpl; lia | apply StartTriangulation_wf].
  - apply (pointsTrace_inv rooms (StartTriangulation screenSize (Clear s))).
    apply StartTriangulation_wf.
Qed.

Lemma scanLoop_vertices (newIndice : Z) (n : nat) : forall st,
  m_Vertices (fst (scanLoop newIndice n st)) = m_Vertices (fst st).
Proof.
  induction n as [| i IH]; intros st; [reflexivity |].
  cbn [scanLoop]. rewrite IH. apply scanStep_vertices.
Qed.

Lemma wf_small_references (n : nat) (t : Triangle) :
  (n <= 4)%nat -> wf_triangle n t -> referencesSuper t.
Proof.
  unfold wf_triangle, distinctIndices, validIndices, referencesSuper.
  intros Hn ((H12 & H13 & H23) & H1 & H2 & H3).
  destruct (Z.le_gt_cases (first t) 2) as [Hle | Hgt].
  - exists (first t). split; [lia | auto].
  - exists (second t). split; [lia | auto].
Qed.

(** * The claims *)

(** C2: after [Triangulate], for every bounds hint, room list and previous
    state, no triangle of the result has 0, 1 or 2 as its first, second or
    third index. *)
Theorem Triangulate_no_super_triangle_vertex
  (screenSize : Z) (rooms : list DungeonRoom) (s : DelaunayTriangulation) :
  Forall (fun t => forall indice, 0 <= indice <= 2 ->
            first t <> indice /\ second t <> indice /\ third t <> indice)
    (m_Triangles (Triangulate atan2f std_sort screenSize rooms s)).
Proof.
  unfold Triangulate. cbv zeta.
  eapply Forall_impl; [| apply FinishTriangulation_clean].
  intros t Ht indice Hi. unfold referencesSuper in Ht.
  repeat split; intros E; apply Ht; exists indice; auto.
Qed.

(** C8: [Triangulate] gives the same vertex and triangle sequences whatever
    state the instance was in before, hence also when it is run again on
    the state a first run with the same arguments left. *)
Theorem Triangulate_deterministic
  (screenSize : Z) (rooms : list DungeonRoom) (s s' : DelaunayTriangulation) :
  Triangulate atan2f std_sort screenSize rooms s
  = Triangulate atan2f std_sort screenSize rooms s'
  /\ Triangulate atan2f std_sort screenSize rooms
       (Triangulate atan2f std_sort screenSize rooms s)
     = Triangulate atan2f std_sort screenSize rooms s.
Proof. split; reflexivity. Qed.

(** C6: in every state of a run of [Triangulate], from the seeded state to
    the result, each triangle has three pairwise different indices, each
    of them a position of the vertex sequence of that state. *)
Theorem Triangulate_triangles_well_formed
  (screenSize : Z) (rooms : list DungeonRoom) (s : DelaunayTriangulation) :
  Forall
    (fun s' =>
       Forall
         (fun t =>
            (first t <> second t /\ first t <> third t /\ second t <> third t)
            /\ (0 <= first t < Z.of_nat (length (m_Vertices s'))
                /\ 0 <= second t < Z.of_nat (length (m_Vertices s'))
                /\ 0 <= third t < Z.of_nat (length (m_Vertices s'))))
         (m_Triangles s'))
    (TriangulateTrace atan2f std_sort screenSize rooms s)
  /\ hd s (TriangulateTrace atan2f std_sort screenSize rooms s)
     = mkDelaunayTriangulation
         [mkVector2 0 0; mkVector2 (-500) 2500; mkVector2 2500 (-500)]
         [mkTriangle 0 1 2]
  /\ last (TriangulateTrace atan2f std_sort screenSize rooms s) s
     = Triangulate atan2f std_sort screenSize rooms s.
Proof.
  split; [| split; [reflexivity | apply TriangulateTrace_last]].
  eapply Forall_impl; [| apply TriangulateTrace_inv].
  intros s' [_ H]. exact H.
Qed.

(** C5: in [AddPoint], when every triangle in storage has three pairwise
    different indices, the polygon holds no index twice in any state of the
    first loop, nor after the sort. *)
Theorem AddPoint_polygon_without_repetition
  (point : Vector2) (s : DelaunayTriangulation) :
  Forall distinctIndices (m_Triangles s) ->
  Forall (fun st => NoDup (snd st))
    (scanTrace (fst (AddVertex point s)) (length (m_Triangles s))
       (snd (AddVertex point s), []))
  /\ NoDup
       (std_sort (polygonLess atan2f (m_Vertices s ++ [point]) point)
          (snd (scanLoop (fst (AddVertex point s)) (length (m_Triangles s))
                  (snd (AddVertex point s), [])))).
Proof.
  intros Hd.
  assert (Htrace :
    Forall (fun st => Forall distinctIndices (m_Triangles (fst st))
                      /\ NoDup (snd st))
      (scanTrace (fst (AddVertex point s)) (length (m_Triangles s))
         (snd (AddVertex point s), []))).
  { apply scanTrace_invariant.
    - intros i st Hi [Hts Hnd]. split.
      + eapply incl_Forall; [apply scanStep_incl | exact Hts].
      + destruct (scanStep_polygon (fst (AddVertex point s)) i st Hi)
          as [-> | (t & Ht & ->)]; [exact Hnd |].
        apply collectVertices_NoDup; [| exact Hnd].
        rewrite Forall_forall in Hts. apply Hts, Ht.
    - apply Nat.le_refl.
    - split; [exact Hd | constructor]. }
  split.
  - eapply Forall_impl; [| exact Htrace]. intros st [_ H]. exact H.
  - eapply Permutation_NoDup; [apply std_sort_polygon |].
    rewrite Forall_forall in Htrace.
    apply (Htrace _ (scanLoop_in_trace _ _ _)).
Qed.

(** C7: with no room or one room [Triangulate] ends with no triangle: in
    every state of the run each triangle names one of the vertices 0, 1, 2,
    and the last loop removes them all. *)
Theorem Triangulate_at_most_one_point
  (screenSize : Z) (rooms : list DungeonRoom) (s : DelaunayTriangulation) :
  (length rooms <= 1)%nat ->
  m_Triangles (Triangulate atan2f std_sort screenSize rooms s) = []
  /\ Forall (fun s' => Forall referencesSuper (m_Triangles s'))
       (TriangulateTrace atan2f std_sort screenSize rooms s).
Proof.
  intros Hrooms.
  assert (Htrace : Forall (fun s' => Forall referencesSuper (m_Triangles s'))
                     (TriangulateTrace atan2f std_sort screenSize rooms s)).
  { eapply Forall_impl; [| apply TriangulateTrace_inv].
    intros s' [Hn Hwf]. eapply Forall_impl; [| exact Hwf].
    intros t. apply wf_small_references. lia. }
  split; [| exact Htrace].
  assert (Hin : In (Triangulate atan2f std_sort screenSize rooms s)
                   (TriangulateTrace atan2f std_sort screenSize rooms s)).
  { rewrite <- (TriangulateTrace_last screenSize rooms s s).
    destruct (@exists_last _ (TriangulateTrace atan2f std_sort screenSize rooms s))
      as (l & a & ->); [discriminate |].
    rewrite last_last. apply in_or_app. right. left. reflexivity. }
  rewrite Forall_forall in Htrace. pose proof (Htrace _ Hin) as Hall.
  pose proof (FinishTriangulation_clean
                (fold_left
                   (fun s room => AddPoint atan2f std_sort (roomCenter room) s)
                   rooms (StartTriangulation screenSize (Clear s)))) as Hclean.
  change (FinishTriangulation _)
    with (Triangulate atan2f std_sort screenSize rooms s) in Hclean.
  destruct (m_Triangles (Triangulate atan2f std_sort screenSize rooms s))
    as [| t ts]; [reflexivity |].
  inversion Hall; subst. inversion Hclean; subst. contradiction.
Qed.

End TriangulationFacts.

(** C1 (the code departs from it): the three added vertices do not follow
    the bounds hint.  With the hint 100 the sequence is (0,0), (-500,2500),
    (2500,-500), not (0,0), (-100,500), (500,-100); the one triangle made is
    (0,1,2). *)
Theorem StartTriangulation_ignores_screenSize :
  m_Vertices (StartTriangulation 100 (Clear (mkDelaunayTriangulation [] [])))
  = [mkVector2 0 0; mkVector2 (-500) 2500; mkVector2 2500 (-500)]
  /\ m_Vertices (StartTriangulation 100 (Clear (mkDelaunayTriangulation [] [])))
     <> [mkVector2 0 0; mkVector2 (- 100) (100 * 5); mkVector2 (100 * 5) (- 100)]
  /\ m_Triangles (StartTriangulation 100 (Clear (mkDelaunayTriangulation [] [])))
     = [mkTriangle 0 1 2].
Proof.
  repeat split. intros E. discriminate E.
Qed.





(** The conversion to [int] cuts towards zero. *)
Example to_int_truncates :
  Float32.to_int (Float32.div (Float32.of_int 7) (Float32.of_int 2)) = 3
  /\ Float32.to_int (Float32.div (Float32.of_int (-7)) (Float32.of_int 2)) = -3.
Proof. split; vm_compute; reflexivity. Qed.

(** The triangle (1,1), (7,9), (-7,7) has its circumcentre at (0,8), at
    squared distance 50 from its vertices: (0,8) is inside, (0,20) is
    not. *)
Example IsInsideCircumcircle_examples :
  circumcenter (mkVector2 1 1) (mkVector2 7 9) (mkVector2 (-7) 7) = (0, 8)
  /\ IsInsideCircumcircle
       [mkVector2 1 1; mkVector2 7 9; mkVector2 (-7) 7; mkVector2 0 8]
       (mkTriangle 0 1 2) 3 = true
  /\ IsInsideCircumcircle
       [mkVector2 1 1; mkVector2 7 9; mkVector2 (-7) 7; mkVector2 0 20]
       (mkTriangle 0 1 2) 3 = false.
Proof. repeat split; vm_compute; reflexivity. Qed.

(** ** The claims at concrete inputs

    The runs below take the insertion sort for [std::sort] and the coarse
    angle for [atan2f]; both meet the contracts. *)

(** Three rooms, of sizes 20 x 20, whose centres are (100,100), (300,100)
    and (100,300). *)
Example three_rooms :
  Triangulate atan2f_coarse insertion_sort 500
    [mkDungeonRoom (mkVector2 90 90) (mkVector2 20 20);
     mkDungeonRoom (mkVector2 290 90) (mkVector2 20 20);
     mkDungeonRoom (mkVector2 90 290) (mkVector2 20 20)]
    (mkDelaunayTriangulation [] [])
  = mkDelaunayTriangulation
      [mkVector2 0 0; mkVector2 (-500) 2500; mkVector2 2500 (-500);
       mkVector2 100 100; mkVector2 300 100; mkVector2 100 300]
      [mkTriangle 3 4 5].
Proof. vm_compute. reflexivity. Qed.

(** C6 on a run over two rooms. *)
Lemma Triangulate_triangles_well_formed_witness :
  Forall wf_state
    (TriangulateTrace atan2f_coarse insertion_sort 500
       [mkDungeonRoom (mkVector2 90 90) (mkVector2 20 20);
        mkDungeonRoom (mkVector2 290 110) (mkVector2 20 20)]
       (mkDelaunayTriangulation [] [])).
Proof.
  exact (proj1 (Triangulate_triangles_well_formed
                  atan2f_coarse insertion_sort
                  atan2f_coarse_contract insertion_sort_contract 500
                  [mkDungeonRoom (mkVector2 90 90) (mkVector2 20 20);
                   mkDungeonRoom (mkVector2 290 110) (mkVector2 20 20)]
                  (mkDelaunayTriangulation [] []))).
Defined.

(** C5 on the insertion of (100,100) into the seeded state, whose one
    triangle (0,1,2) has three different indices. *)
Lemma AddPoint_polygon_without_repetition_witness :
  Forall (fun st => NoDup (snd st))
    (scanTrace 3 1
       (mkDelaunayTriangulation
          [mkVector2 0 0; mkVector2 (-500) 2500; mkVector2 2500 (-500);
           mkVector2 100 100]
          [mkTriangle 0 1 2], [])).
Proof.
  apply (AddPoint_polygon_without_repetition
           atan2f_coarse insertion_sort
           atan2f_coarse_contract insertion_sort_contract
           (mkVector2 100 100)
           (mkDelaunayTriangulation
              [mkVector2 0 0; mkVector2 (-500) 2500; mkVector2 2500 (-500)]
              [mkTriangle 0 1 2])).
  constructor; [| constructor].
  unfold distinctIndices; simpl. lia.
Defined.

(** C7 on a run over one room. *)
Lemma Triangulate_at_most_one_point_witness :
  m_Triangles
    (Triangulate atan2f_coarse insertion_sort 500
       [mkDungeonRoom (mkVector2 90 90) (mkVector2 20 20)]
       (mkDelaunayTriangulation [] [])) = [].
Proof.
  apply (Triangulate_at_most_one_point
           atan2f_coarse insertion_sort
           atan2f_coarse_contract insertion_sort_contract 500
           [mkDungeonRoom (mkVector2 90 90) (mkVector2 20 20)]
           (mkDelaunayTriangulation [] [])).
  simpl. lia.
Defined.

(** * Further properties *)

(** ** Vector2 *)

(** X13: as long as the coordinates of [a] are [int]s, adding [b] and then
    subtracting it gives [a] back, and so does subtracting first: the
    wrap-around of the intermediate result cancels. *)
Theorem Vector2_add_sub_roundtrip (a b : Vector2) :
  Int32.in_range (x a) -> Int32.in_range (y a) ->
  Vector2_sub (Vector2_add a b) b = a /\ Vector2_add (Vector2_sub a b) b = a.
Proof.
  intros Hx Hy. destruct a as [ax ay], b as [bx b_y]; simpl in *.
  unfold Vector2_sub, Vector2_add, Int32.add, Int32.sub; simpl.
  rewrite !Int32Facts.wrap_sub_l, !Int32Facts.wrap_add_l.
  replace (ax + bx - bx) with ax by lia. replace (ay + b_y - b_y) with ay by lia.
  replace (ax - bx + bx) with ax by lia. replace (ay - b_y + b_y) with ay by lia.
  rewrite !Int32Facts.wrap_small by assumption. split; reflexivity.
Qed.

Lemma Vector2_add_sub_roundtrip_witness :
  Vector2_sub (Vector2_add (mkVector2 2147483647 (-5)) (mkVector2 10 7))
              (mkVector2 10 7)
  = mkVector2 2147483647 (-5).
Proof.
  apply (Vector2_add_sub_roundtrip (mkVector2 2147483647 (-5)) (mkVector2 10 7));
    unfold Int32.in_range, Int32.min_signed, Int32.max_signed; simpl; lia.
Defined.

(** X14: for a vector of [int]s, multiplying by a factor other than zero
    and dividing by it again gives the vector back, when the two products
    are [int]s. *)
Theorem Vector2_mul_div_roundtrip (a : Vector2) (k : Z) :
  k <> 0 ->
  Int32.in_range (x a) -> Int32.in_range (y a) ->
  Int32.in_range (x a * k) -> Int32.in_range (y a * k) ->
  Vector2_div (Vector2_mul a k) k = a.
Proof.
  intros Hk Hx Hy Hxk Hyk. destruct a as [ax ay]; simpl in *.
  unfold Vector2_div, Vector2_mul, Int32.mul, Int32.div; simpl.
  rewrite (Int32Facts.wrap_small (ax * k)), (Int32Facts.wrap_small (ay * k))
    by assumption.
  rewrite !Z.quot_mul by exact Hk.
  rewrite !Int32Facts.wrap_small by assumption. reflexivity.
Qed.

Lemma Vector2_mul_div_roundtrip_witness :
  Vector2_div (Vector2_mul (mkVector2 7 (-9)) (-3)) (-3) = mkVector2 7 (-9).
Proof.
  apply (Vector2_mul_div_roundtrip (mkVector2 7 (-9)) (-3));
    unfold Int32.in_range, Int32.min_signed, Int32.max_signed; simpl; lia.
Defined.

Lemma DistanceSqr_small (a b : Vector2) :
  smallCoordinates a -> smallCoordinates b ->
  DistanceSqr a b = (x b - x a) * (x b - x a) + (y b - y a) * y b - y a.
Proof.
  intros [Hax Hay] [Hbx Hby]. apply DistanceSqr_exact.
  unfold Int32.in_range, Int32.min_signed, Int32.max_signed.
  change (2 ^ 14) with 16384 in *. change (2 ^ 31) with 2147483648.
  assert (Hd : - 32768 <= x b - x a <= 32768) by lia.
  assert (He : - 32768 <= y b - y a <= 32768) by lia.
  generalize dependent (x b - x a). generalize dependent (y b - y a).
  intros e He d Hd.
  assert (0 <= d * d <= 1073741824) by nia.
  assert (- 536870912 <= e * y b <= 536870912) by nia.
  lia.
Qed.

(** X11: for coordinates between -2^14 and 2^14, [a.DistanceSqr(b)] and
    [b.DistanceSqr(a)] agree exactly when the two points have the same [y]
    or their [y]s add up to -1. *)
Theorem DistanceSqr_symmetric_iff (a b : Vector2) :
  smallCoordinates a -> smallCoordinates b ->
  (DistanceSqr a b = DistanceSqr b a <-> y a = y b \/ y a + y b = -1).
Proof.
  intros Ha Hb. rewrite (DistanceSqr_small a b Ha Hb), (DistanceSqr_small b a Hb Ha).
  split.
  - intros E.
    assert (F : (y b - y a) * (y b + y a + 1) = 0) by lia.
    apply Z.mul_eq_0 in F. lia.
  - intros [E | E]; [rewrite E; lia |].
    replace (y b) with (- 1 - y a) by lia. lia.
Qed.

Lemma DistanceSqr_symmetric_iff_witness :
  DistanceSqr (mkVector2 3 5) (mkVector2 (-4) (-6))
  = DistanceSqr (mkVector2 (-4) (-6)) (mkVector2 3 5).
Proof.
  apply (DistanceSqr_symmetric_iff (mkVector2 3 5) (mkVector2 (-4) (-6)));
    unfold smallCoordinates; simpl; lia.
Defined.

(** X12: for coordinates between -2^14 and 2^14, [a.DistanceSqr(b)] is the
    squared distance between [a] and [b] exactly when [a.y] is zero or
    [b.y] is [a.y + 1]. *)
Theorem DistanceSqr_euclidean_iff (a b : Vector2) :
  smallCoordinates a -> smallCoordinates b ->
  (DistanceSqr a b = euclidSqr a b <-> y a = 0 \/ y b = y a + 1).
Proof.
  intros Ha Hb. rewrite (DistanceSqr_small a b Ha Hb). unfold euclidSqr.
  split.
  - intros E.
    assert (F : y a * (y b - y a - 1) = 0) by lia.
    apply Z.mul_eq_0 in F. lia.
  - intros [E | E]; rewrite E; lia.
Qed.

Lemma DistanceSqr_euclidean_iff_witness :
  DistanceSqr (mkVector2 3 0) (mkVector2 (-4) 7)
  = euclidSqr (mkVector2 3 0) (mkVector2 (-4) 7).
Proof.
  apply (DistanceSqr_euclidean_iff (mkVector2 3 0) (mkVector2 (-4) 7));
    unfold smallCoordinates; simpl; lia.
Defined.

(** ** Edge *)

(** X18: every edge compares equal to itself and to the edge with the two
    endpoints exchanged, in both orders. *)
Theorem Edge_eq_reflexive_and_reversal (e : Edge) :
  Edge_eq e e = true
  /\ Edge_eq e (mkEdge (p1 e) (p0 e)) = true
  /\ Edge_eq (mkEdge (p1 e) (p0 e)) e = true.
Proof.
  assert (R : forall v, Vector2_eq v v = true)
    by (intros v; apply Vector2_eq_spec; reflexivity).
  unfold Edge_eq; simpl. rewrite !R, !orb_true_r. auto.
Qed.

(** X9: between edges that each have two different endpoints,
    [operator==] holds exactly for the same two endpoints in either order,
    and does not depend on which edge is on the left. *)
Theorem Edge_eq_of_proper_edges (e other : Edge) :
  p0 e <> p1 e -> p0 other <> p1 other ->
  (Edge_eq e other = true <-> same_endpoints e other)
  /\ Edge_eq e other = Edge_eq other e.
Proof.
  intros He Ho. split; [apply Edge_eq_nondegenerate; assumption |].
  pose proof (Edge_eq_nondegenerate e other He Ho) as H1.
  pose proof (Edge_eq_nondegenerate other e Ho He) as H2.
  assert (S : same_endpoints e other <-> same_endpoints other e).
  { unfold same_endpoints. intuition congruence. }
  destruct (Edge_eq e other), (Edge_eq other e); try reflexivity.
  - assert (true = true) as T by reflexivity.
    apply H1, S, H2 in T. discriminate T.
  - assert (true = true) as T by reflexivity.
    apply H2, S, H1 in T. discriminate T.
Qed.

Lemma Edge_eq_of_proper_edges_witness :
  Edge_eq (mkEdge (mkVector2 0 0) (mkVector2 1 0))
          (mkEdge (mkVector2 1 0) (mkVector2 0 0))
  = Edge_eq (mkEdge (mkVector2 1 0) (mkVector2 0 0))
            (mkEdge (mkVector2 0 0) (mkVector2 1 0)).
Proof.
  apply (Edge_eq_of_proper_edges
           (mkEdge (mkVector2 0 0) (mkVector2 1 0))
           (mkEdge (mkVector2 1 0) (mkVector2 0 0)));
    simpl; discriminate.
Defined.

(** X10: [operator<] on edges is a strict weak order, which is what
    [std::sort] and the ordered containers ask of a comparison. *)
Theorem Edge_lt_strict_weak_order : strict_weak_order Edge_lt.
Proof.
  unfold strict_weak_order, Edge_lt. split; [| split].
  - intros e. apply Z.ltb_irrefl.
  - intros e1 e2 e3. rewrite !Z.ltb_lt. lia.
  - intros e1 e2 e3. rewrite !Z.ltb_ge. lia.
Qed.

(** ** ToDirection *)

Lemma directionOf_values (ranged : Float32.float) :
  directionOf ranged = -1 \/ directionOf ranged = 0 \/ directionOf ranged = 1.
Proof.
  unfold directionOf.
  destruct (Float32.ltb half (fabs ranged)), (Float32.ltb ranged Float32.zero);
    vm_compute; auto.
Qed.

(** X15: whatever the vector, [ToDirection] leaves each coordinate at -1,
    0 or 1. *)
Theorem ToDirection_components (v : Vector2) :
  (x (snd (ToDirection v)) = -1 \/ x (snd (ToDirection v)) = 0
   \/ x (snd (ToDirection v)) = 1)
  /\ (y (snd (ToDirection v)) = -1 \/ y (snd (ToDirection v)) = 0
      \/ y (snd (ToDirection v)) = 1).
Proof. split; apply directionOf_values. Qed.

(** X16: a second [ToDirection] changes nothing: the nine vectors with
    coordinates -1, 0, 1 are kept as they are. *)
Theorem ToDirection_idempotent (v : Vector2) :
  snd (ToDirection (snd (ToDirection v))) = snd (ToDirection v).
Proof.
  destruct (ToDirection_components v) as [Hx Hy].
  destruct (snd (ToDirection v)) as [dx dy]. simpl in Hx, Hy.
  destruct Hx as [-> | [-> | ->]]; destruct Hy as [-> | [-> | ->]];
    vm_compute; reflexivity.
Qed.

Lemma binary_round_aux_signIs (prec emax : Z) (sx : bool) (mx ex : Z)
  (lx : location) : signIs sx (binary_round_aux prec emax sx mx ex lx).
Proof.
  unfold binary_round_aux.
  destruct (shr_fexp prec emax mx ex lx) as [mrs' e'].
  destruct (shr_fexp prec emax _ e' loc_Exact) as [mrs'' e''].
  destruct (shr_m mrs'') as [| p | p]; simpl; auto.
  destruct (e'' <=? emax - prec); simpl; reflexivity.
Qed.

Lemma of_int_signIs (i : Z) : signIs (i <? 0) (Float32.of_int i).
Proof.
  unfold Float32.of_int, binary_normalize, binary_round.
  destruct i as [| p | p]; simpl; [reflexivity | |];
    destruct (shl_align _ _ _) as [mz ez]; apply binary_round_aux_signIs.
Qed.

Lemma sqrtf_of_int_signIs (i : Z) :
  0 <= i -> signIs false (sqrtf (Float32.of_int i)).
Proof.
  intros Hi. pose proof (of_int_signIs i) as H.
  replace (i <? 0) with false in H by (symmetry; apply Z.ltb_ge, Hi).
  unfold sqrtf, SFsqrt.
  destruct (Float32.of_int i) as [s | s | | s m e]; cbn [signIs] in H; subst;
    cbn [signIs]; auto.
  destruct (SFsqrt_core_binary _ _ _ _) as [[mz ez] lz].
  apply binary_round_aux_signIs.
Qed.

Lemma div_signIs (sa sb : bool) (a b : Float32.float) :
  signIs sa a -> signIs sb b -> signIs (xorb sa sb) (Float32.div a b).
Proof.
  unfold Float32.div, SFdiv.
  destruct a as [s | s | | s m e], b as [s' | s' | | s' m' e'];
    cbn [signIs]; intros Ha Hb; subst; auto.
  destruct (SFdiv_core_binary _ _ _ _ _ _) as [[mz ez] lz].
  apply binary_round_aux_signIs.
Qed.

Lemma signIs_false_not_below_zero (ranged : Float32.float) :
  signIs false ranged -> Float32.ltb ranged Float32.zero = false.
Proof.
  destruct ranged as [s | s | | s m e]; cbn [signIs]; intros H; subst;
    reflexivity.
Qed.

Lemma signIs_true_below_zero_or_small (ranged : Float32.float) :
  signIs true ranged ->
  Float32.ltb ranged Float32.zero = true
  \/ Float32.ltb half (fabs ranged) = false.
Proof.
  destruct ranged as [s | s | | s m e]; cbn [signIs]; intros H; subst.
  - right. reflexivity.
  - left. reflexivity.
  - right. reflexivity.
  - left. reflexivity.
Qed.

Lemma directionOf_signIs (s : bool) (ranged : Float32.float) :
  signIs s ranged ->
  if s then directionOf ranged <= 0 else 0 <= directionOf ranged.
Proof.
  intros H. unfold directionOf. destruct s.
  - destruct (signIs_true_below_zero_or_small ranged H) as [-> | ->].
    + destruct (Float32.ltb half (fabs ranged)); vm_compute; discriminate.
    + destruct (Float32.ltb ranged Float32.zero); vm_compute; discriminate.
  - rewrite (signIs_false_not_below_zero ranged H).
    destruct (Float32.ltb half (fabs ranged)); lia.
Qed.

(** X17: when [x * x + y * y] is an [int], [ToDirection] never turns a
    coordinate to the other side of zero: the old and the new coordinate
    are not of opposite signs. *)
Theorem ToDirection_keeps_sign (v : Vector2) :
  Int32.in_range (x v * x v + y v * y v) ->
  0 <= x v * x (snd (ToDirection v)) /\ 0 <= y v * y (snd (ToDirection v)).
Proof.
  intros Hr. unfold ToDirection. cbn [snd x y].
  assert (L : signIs false
                (sqrtf (Float32.of_int
                          (Int32.add (Int32.mul (x v) (x v))
                                     (Int32.mul (y v) (y v)))))).
  { apply sqrtf_of_int_signIs.
    unfold Int32.add, Int32.mul.
    rewrite Int32Facts.wrap_add_l, Int32Facts.wrap_add_r,
      Int32Facts.wrap_small by exact Hr.
    nia. }
  set (length := sqrtf _) in *.
  assert (G : forall c, 0 <= c * directionOf (Float32.div (Float32.of_int c) length)).
  { intros c.
    pose proof (directionOf_signIs _ _
                  (div_signIs _ _ _ _ (of_int_signIs c) L)) as D.
    rewrite xorb_false_r in D.
    destruct (Z.ltb_spec c 0); nia. }
  split; apply G.
Qed.

Lemma ToDirection_keeps_sign_witness :
  0 <= -10 * x (snd (ToDirection (mkVector2 (-10) 1))).
Proof.
  apply (ToDirection_keeps_sign (mkVector2 (-10) 1)).
  unfold Int32.in_range, Int32.min_signed, Int32.max_signed; simpl; lia.
Defined.

(** ** The reverse loops remove exactly what they select *)

Lemma swapped_tail_Permutation (t : Triangle) (b : list Triangle) :
  Permutation (removelast (last (t :: b) (mkTriangle 0 0 0) :: b)) b.
Proof.
  destruct b as [| u b'] using rev_ind; [apply Permutation_refl |].
  change (t :: b' ++ [u]) with ((t :: b') ++ [u]). rewrite last_last.
  change (u :: b' ++ [u]) with ((u :: b') ++ [u]). rewrite removelast_last.
  apply Permutation_cons_append.
Qed.

Lemma sweep_Permutation (p : Triangle -> bool) (n : nat) : forall ts,
  (n <= length ts)%nat ->
  Permutation (sweep p n ts)
    (filter (fun t => negb (p t)) (firstn n ts) ++ skipn n ts).
Proof.
  induction n as [| i IH]; intros ts Hn; [apply Permutation_refl |].
  destruct (nth_split ts (mkTriangle 0 0 0) Hn) as (a & b & E & Ha).
  cbn [sweep]. unfold triangleAt.
  set (t := nth i ts (mkTriangle 0 0 0)) in *. clearbody t. subst ts i.
  replace (S (length a)) with (length (a ++ [t]))
    by (rewrite length_app; simpl; lia).
  replace (a ++ t :: b) with ((a ++ [t]) ++ b) at 3 4
    by (rewrite <- app_assoc; reflexivity).
  rewrite firstn_length_app, skipn_length_app, filter_app. cbn [filter].
  destruct (p t) eqn:Ept; cbn [negb].
  - rewrite swapRemove_split, app_nil_r.
    eapply Permutation_trans.
    + apply IH. rewrite length_app. lia.
    + rewrite firstn_length_app, skipn_length_app.
      apply Permutation_app_head, swapped_tail_Permutation.
  - eapply Permutation_trans.
    + apply IH. rewrite length_app. lia.
    + rewrite firstn_length_app, skipn_length_app, <- app_assoc.
      apply Permutation_refl.
Qed.

Lemma sweep_nothing_selected (p : Triangle -> bool) (n : nat) : forall ts,
  (n <= length ts)%nat -> Forall (fun t => p t = false) ts -> sweep p n ts = ts.
Proof.
  induction n as [| i IH]; intros ts Hn Hall; [reflexivity |].
  cbn [sweep]. rewrite Forall_forall in Hall.
  rewrite (Hall (triangleAt ts i)) by (apply nth_In; lia).
  apply IH; [lia | apply Forall_forall, Hall].
Qed.

Lemma finishLoop_sweep (n : nat) : forall s,
  finishLoop n s
  = mkDelaunayTriangulation (m_Vertices s)
      (sweep touchesSuper n (m_Triangles s)).
Proof.
  induction n as [| i IH]; intros [vs ts]; [reflexivity |].
  cbn [finishLoop sweep]. rewrite IH. unfold finishStep.
  cbn [m_Triangles m_Vertices].
  destruct (touchesSuper (triangleAt ts i)); reflexivity.
Qed.

Lemma scanLoop_S (newIndice : Z) (i : nat)
  (st : DelaunayTriangulation * list Z) :
  scanLoop newIndice (S i) st = scanLoop newIndice i (scanStep newIndice i st).
Proof. reflexivity. Qed.

Lemma sweep_S (p : Triangle -> bool) (i : nat) (ts : list Triangle) :
  sweep p (S i) ts
  = sweep p i (if p (triangleAt ts i) then swapRemove i ts else ts).
Proof. reflexivity. Qed.

(** A step of the first loop of [AddPoint] at the position after [a], the
    triangles in storage being [a ++ t :: b]. *)
Lemma scanStep_at (newIndice : Z) (s : DelaunayTriangulation)
  (polygon : list Z) (a b : list Triangle) (t : Triangle) :
  m_Triangles s = a ++ t :: b ->
  scanStep newIndice (length a) (s, polygon)
  = if IsInsideCircumcircle (m_Vertices s) t newIndice
    then (mkDelaunayTriangulation (m_Vertices s)
            (a ++ removelast (last (t :: b) (mkTriangle 0 0 0) :: b)),
          collectVertices polygon t)
    else (s, polygon).
Proof.
  intros E. unfold scanStep, triangleAt, RemoveTriangle.
  rewrite E, nth_middle, swapRemove_split.
  destruct (IsInsideCircumcircle (m_Vertices s) t newIndice); reflexivity.
Qed.

Lemma firstn_S_length_app {A : Type} (a b : list A) (t : A) :
  firstn (S (length a)) (a ++ t :: b) = a ++ [t].
Proof.
  replace (S (length a)) with (length (a ++ [t]))
    by (rewrite length_app; simpl; lia).
  replace (a ++ t :: b) with ((a ++ [t]) ++ b)
    by (rewrite <- app_assoc; reflexivity).
  apply firstn_length_app.
Qed.

Lemma sweep_at (p : Triangle -> bool) (a b : list Triangle) (t : Triangle) :
  sweep p (S (length a)) (a ++ t :: b)
  = sweep p (length a)
      (if p t then a ++ removelast (last (t :: b) (mkTriangle 0 0 0) :: b)
       else a ++ t :: b).
Proof.
  rewrite sweep_S. unfold triangleAt. rewrite nth_middle, swapRemove_split.
  reflexivity.
Qed.

Lemma scanLoop_sweep (newIndice : Z) (n : nat) : forall s polygon,
  (n <= length (m_Triangles s))%nat ->
  m_Triangles (fst (scanLoop newIndice n (s, polygon)))
  = sweep (fun t => IsInsideCircumcircle (m_Vertices s) t newIndice) n
      (m_Triangles s).
Proof.
  induction n as [| i IH]; intros s polygon Hn; [reflexivity |].
  destruct (nth_split (m_Triangles s) (mkTriangle 0 0 0) Hn) as (a & b & E & Ha).
  set (t := nth i (m_Triangles s) (mkTriangle 0 0 0)) in E. clearbody t. subst i.
  rewrite scanLoop_S, (scanStep_at newIndice s polygon a b t E), E, sweep_at.
  destruct (IsInsideCircumcircle (m_Vertices s) t newIndice).
  - rewrite IH by (cbn [m_Triangles]; rewrite length_app; lia).
    cbn [m_Triangles m_Vertices]. reflexivity.
  - rewrite IH by (rewrite E, length_app; simpl; lia).
    rewrite E. reflexivity.
Qed.

(** X2: [FinishTriangulation] keeps the vertices, and of the triangles it
    keeps those that name none of the vertices 0, 1, 2, each as often as it
    was there, and no other. *)
Theorem FinishTriangulation_keeps_the_rest (s : DelaunayTriangulation) :
  m_Vertices (FinishTriangulation s) = m_Vertices s
  /\ Permutation (m_Triangles (FinishTriangulation s))
       (filter (fun t => negb (touchesSuper t)) (m_Triangles s))
  /\ (forall t, touchesSuper t = true <->
        exists indice, 0 <= indice <= 2 /\
          (first t = indice \/ second t = indice \/ third t = indice)).
Proof.
  unfold FinishTriangulation. rewrite finishLoop_sweep. cbn [m_Vertices m_Triangles].
  split; [reflexivity |]. split; [| exact touchesSuper_spec].
  eapply Permutation_trans; [apply sweep_Permutation, Nat.le_refl |].
  rewrite firstn_all, skipn_all, app_nil_r. apply Permutation_refl.
Qed.

(** X3: a second [FinishTriangulation] changes nothing. *)
Theorem FinishTriangulation_idempotent (s : DelaunayTriangulation) :
  FinishTriangulation (FinishTriangulation s) = FinishTriangulation s.
Proof.
  assert (Hclean : Forall (fun t => touchesSuper t = false)
                     (m_Triangles (FinishTriangulation s))).
  { unfold FinishTriangulation. apply finishLoop_clean; [apply Nat.le_refl |].
    rewrite skipn_all. constructor. }
  destruct (FinishTriangulation s) as [vs ts] eqn:E. cbn [m_Triangles] in Hclean.
  unfold FinishTriangulation. rewrite finishLoop_sweep. cbn [m_Vertices m_Triangles].
  rewrite sweep_nothing_selected; [reflexivity | apply Nat.le_refl | exact Hclean].
Qed.

(** ** What the first loop of AddPoint removes and collects *)

Lemma existsb_eqb_true (a : Z) (l : list Z) :
  existsb (fun v => v =? a) l = true -> In a l.
Proof.
  intros H. apply existsb_exists in H. destruct H as (u & Hu & E).
  apply Z.eqb_eq in E. subst. exact Hu.
Qed.

Lemma collectVertices_In (polygon : list Z) (t : Triangle) (v : Z) :
  In v (collectVertices polygon t)
  <-> In v polygon \/ v = first t \/ v = second t \/ v = third t.
Proof.
  rewrite collectVertices_eq, !in_app_iff.
  destruct (existsb (fun u => u =? first t) polygon) eqn:E1,
           (existsb (fun u => u =? second t) polygon) eqn:E2,
           (existsb (fun u => u =? third t) polygon) eqn:E3;
    try apply existsb_eqb_true in E1;
    try apply existsb_eqb_true in E2;
    try apply existsb_eqb_true in E3;
    simpl; intuition (subst; auto).
Qed.

Lemma collectVertices_length_bounds (polygon : list Z) (t : Triangle) :
  (length polygon = 0 \/ 3 <= length polygon)%nat ->
  (3 <= length (collectVertices polygon t) <= length polygon + 3)%nat.
Proof.
  intros H. rewrite collectVertices_eq.
  destruct polygon as [| u polygon'].
  - simpl. lia.
  - rewrite !length_app.
    destruct (existsb _ _), (existsb _ _), (existsb _ _); simpl in *; lia.
Qed.

(** The polygon after the loop over the first [n] positions: what it held
    before, and the indices of the triangles among them that the loop
    removed. *)
Lemma scanLoop_polygon_In (newIndice : Z) (n : nat) : forall s polygon v,
  (n <= length (m_Triangles s))%nat ->
  (In v (snd (scanLoop newIndice n (s, polygon)))
   <-> In v polygon
       \/ exists t, In t (firstn n (m_Triangles s))
            /\ IsInsideCircumcircle (m_Vertices s) t newIndice = true
            /\ (v = first t \/ v = second t \/ v = third t)).
Proof.
  induction n as [| i IH]; intros s polygon v Hn.
  - cbn [scanLoop snd firstn]. split; [auto | intros [H | (t & [] & _)]; exact H].
  - destruct (nth_split (m_Triangles s) (mkTriangle 0 0 0) Hn)
      as (a & b & E & Ha).
    set (t := nth i (m_Triangles s) (mkTriangle 0 0 0)) in E. clearbody t.
    subst i.
    rewrite scanLoop_S, (scanStep_at newIndice s polygon a b t E), E,
      firstn_S_length_app.
    destruct (IsInsideCircumcircle (m_Vertices s) t newIndice) eqn:Et.
    + rewrite IH by (cbn [m_Triangles]; rewrite length_app; lia).
      cbn [m_Triangles m_Vertices]. rewrite firstn_length_app, collectVertices_In.
      split.
      * intros [[H | H] | (t' & Ht' & Hin & Hv)]; auto.
        -- right. exists t. rewrite in_app_iff. simpl. auto.
        -- right. exists t'. rewrite in_app_iff. auto.
      * intros [H | (t' & Ht' & Hin & Hv)]; auto.
        apply in_app_iff in Ht'. destruct Ht' as [Ht' | [<- | []]]; auto.
        right. exists t'. auto.
    + rewrite IH by (rewrite E, length_app; simpl; lia).
      rewrite E, firstn_length_app.
      split.
      * intros [H | (t' & Ht' & Hin & Hv)]; auto.
        right. exists t'. rewrite in_app_iff. auto.
      * intros [H | (t' & Ht' & Hin & Hv)]; auto.
        apply in_app_iff in Ht'. destruct Ht' as [Ht' | [<- | []]].
        -- right. exists t'. auto.
        -- congruence.
Qed.

Lemma scanLoop_polygon_length (newIndice : Z) (n : nat) : forall s polygon,
  (n <= length (m_Triangles s))%nat ->
  (length polygon = 0 \/ 3 <= length polygon)%nat ->
  (length (snd (scanLoop newIndice n (s, polygon))) = 0
   \/ 3 <= length (snd (scanLoop newIndice n (s, polygon))))%nat
  /\ (length (snd (scanLoop newIndice n (s, polygon)))
      <= length polygon
         + 3 * length (filter
                         (fun t => IsInsideCircumcircle (m_Vertices s) t newIndice)
                         (firstn n (m_Triangles s))))%nat.
Proof.
  induction n as [| i IH]; intros s polygon Hn Hp.
  - cbn [scanLoop snd firstn filter length]. lia.
  - destruct (nth_split (m_Triangles s) (mkTriangle 0 0 0) Hn)
      as (a & b & E & Ha).
    set (t := nth i (m_Triangles s) (mkTriangle 0 0 0)) in E. clearbody t.
    subst i.
    rewrite scanLoop_S, (scanStep_at newIndice s polygon a b t E), E,
      firstn_S_length_app, filter_app, length_app.
    cbn [filter].
    destruct (IsInsideCircumcircle (m_Vertices s) t newIndice) eqn:Et.
    + pose proof (collectVertices_length_bounds polygon t Hp) as Hc.
      destruct (IH (mkDelaunayTriangulation (m_Vertices s)
                      (a ++ removelast (last (t :: b) (mkTriangle 0 0 0) :: b)))
                   (collectVertices polygon t)) as [I1 I2].
      * cbn [m_Triangles]. rewrite length_app. lia.
      * lia.
      * cbn [m_Triangles m_Vertices] in I2. rewrite firstn_length_app in I2.
        split; [exact I1 |]. cbn [length]. lia.
    + destruct (IH s polygon) as [I1 I2].
      * rewrite E, length_app. simpl. lia.
      * exact Hp.
      * rewrite E, firstn_length_app in I2.
        split; [exact I1 |]. cbn [length]. lia.
Qed.

(** X4: the first loop of [AddPoint] leaves in storage the triangles whose
    circle does not hold the new point, each as often as it was there, and
    the polygon it collects holds exactly the indices of the triangles it
    removed. *)
Theorem AddPoint_scan_removes_and_collects
  (point : Vector2) (s : DelaunayTriangulation) :
  let newIndice := Z.of_nat (length (m_Vertices s)) in
  let vertices := m_Vertices s ++ [point] in
  let inside := fun t => IsInsideCircumcircle vertices t newIndice in
  let scanned :=
    scanLoop newIndice (length (m_Triangles s))
      (mkDelaunayTriangulation vertices (m_Triangles s), []) in
  Permutation (m_Triangles (fst scanned))
    (filter (fun t => negb (inside t)) (m_Triangles s))
  /\ (forall v,
        In v (snd scanned)
        <-> exists t, In t (m_Triangles s) /\ inside t = true
              /\ (v = first t \/ v = second t \/ v = third t)).
Proof.
  intros newIndice vertices inside scanned.
  set (s1 := mkDelaunayTriangulation vertices (m_Triangles s)) in *.
  assert (Hn : (length (m_Triangles s) <= length (m_Triangles s1))%nat)
    by apply Nat.le_refl.
  split.
  - unfold scanned. rewrite (scanLoop_sweep newIndice _ s1 [] Hn).
    eapply Permutation_trans;
      [apply sweep_Permutation; exact Hn |].
    change (m_Triangles s1) with (m_Triangles s).
    rewrite firstn_all, skipn_all, app_nil_r. apply Permutation_refl.
  - intros v. unfold scanned.
    rewrite (scanLoop_polygon_In newIndice _ s1 [] v Hn).
    change (m_Triangles s1) with (m_Triangles s).
    change (m_Vertices s1) with vertices.
    rewrite firstn_all.
    split; [intros [[] | H]; exact H | auto].
Qed.



(** ** AddPoint and Triangulate as a whole *)

Section RunFacts.

Variable atan2f : Float32.float -> Float32.float -> Float32.float.
Variable std_sort : (Z -> Z -> bool) -> list Z -> list Z.

(** X1: after [Triangulate] the vertex sequence is the three super-triangle
    vertices followed by the centres of the rooms, in the order of the
    rooms; nothing that was there before is left, and no vertex is taken
    out at the end. *)
Theorem Triangulate_vertices
  (screenSize : Z) (rooms : list DungeonRoom) (s : DelaunayTriangulation) :
  m_Vertices (Triangulate atan2f std_sort screenSize rooms s)
  = [mkVector2 0 0; mkVector2 (-500) 2500; mkVector2 2500 (-500)]
    ++ map (fun room =>
              Vector2_add (GetPosition room) (Vector2_div (GetSize room) 2))
           rooms.
Proof.
  unfold Triangulate. cbv zeta. unfold FinishTriangulation.
  rewrite finishLoop_vertices, points_vertices. reflexivity.
Qed.

Hypothesis atan2f_ok : atan2f_contract atan2f.
Hypothesis std_sort_ok : sort_contract std_sort.


(** X6: [AddPoint] appends, after the triangles its first loop left, either
    no triangle or at least three, and not more than three for each
    triangle it removed; each of them has the new vertex as third index;
    when the point is in some triangle's circle there are at least
    three. *)
Theorem AddPoint_adds_none_or_at_least_three
  (point : Vector2) (s : DelaunayTriangulation) :
  let newIndice := Z.of_nat (length (m_Vertices s)) in
  let vertices := m_Vertices s ++ [point] in
  let inside := fun t => IsInsideCircumcircle vertices t newIndice in
  let scanned :=
    scanLoop newIndice (length (m_Triangles s))
      (mkDelaunayTriangulation vertices (m_Triangles s), []) in
  exists added,
    m_Triangles (AddPoint atan2f std_sort point s)
    = m_Triangles (fst scanned) ++ added
    /\ Forall (fun t => third t = newIndice) added
    /\ (length added = 0 \/ 3 <= length added)%nat
    /\ (length added <= 3 * length (filter inside (m_Triangles s)))%nat
    /\ (Exists (fun t => inside t = true) (m_Triangles s) ->
        3 <= length added)%nat.
Proof.
  intros newIndice vertices inside scanned.
  set (s1 := mkDelaunayTriangulation vertices (m_Triangles s)) in *.
  assert (Hvs : m_Vertices (fst scanned) = vertices)
    by apply scanLoop_vertices.
  destruct (std_sort_polygon atan2f std_sort atan2f_ok std_sort_ok
              vertices point (snd scanned)) as [Hperm _].
  set (boundary := std_sort (polygonLess atan2f vertices point) (snd scanned))
    in *.
  exists (map (fanTriangle boundary newIndice) (seq 0 (length boundary))).
  assert (Hlen : length (map (fanTriangle boundary newIndice)
                           (seq 0 (length boundary)))
                 = length (snd scanned)).
  { rewrite length_map, length_seq. symmetry. apply Permutation_length, Hperm. }
  destruct (scanLoop_polygon_length newIndice (length (m_Triangles s)) s1 [])
    as [L1 L2]; [apply Nat.le_refl | left; reflexivity |].
  change (scanLoop newIndice (length (m_Triangles s)) (s1, [])) with scanned
    in L1, L2.
  change (m_Triangles s1) with (m_Triangles s) in L2.
  change (m_Vertices s1) with vertices in L2.
  rewrite firstn_all in L2. cbn [length] in L2.
  rewrite Hlen. repeat split.
  - rewrite AddPoint_eq. cbv zeta. cbn [AddVertex snd].
    fold newIndice vertices s1 scanned. rewrite Hvs. fold boundary.
    apply fanLoop_triangles.
  - apply Forall_forall. intros t Ht. apply in_map_iff in Ht.
    destruct Ht as (i & <- & _). reflexivity.
  - exact L1.
  - exact L2.
  - intros Hex. apply Exists_exists in Hex. destruct Hex as (t & Ht & Hin).
    assert (Hv : In (first t) (snd scanned)).
    { unfold scanned.
      apply (scanLoop_polygon_In newIndice _ s1 [] (first t) (Nat.le_refl _)).
      right. exists t. change (m_Triangles s1) with (m_Triangles s).
      rewrite firstn_all. auto. }
    destruct L1 as [L1 | L1]; [| exact L1].
    apply length_zero_iff_nil in L1. rewrite L1 in Hv. contradiction Hv.
Qed.

(** The result of [Triangulate]: at most three vertices more than rooms,
    well-formed triangles, none naming a super-triangle vertex. *)
Lemma Triangulate_result_inv
  (screenSize : Z) (rooms : list DungeonRoom) (s : DelaunayTriangulation) :
  Forall (fun t =>
            wf_triangle (3 + length rooms) t /\ ~ referencesSuper t)
    (m_Triangles (Triangulate atan2f std_sort screenSize rooms s)).
Proof.
  pose proof (TriangulateTrace_inv atan2f std_sort atan2f_ok std_sort_ok
                screenSize rooms s) as Htrace.
  assert (Hin : In (Triangulate atan2f std_sort screenSize rooms s)
                   (TriangulateTrace atan2f std_sort screenSize rooms s)).
  { rewrite <- (TriangulateTrace_last atan2f std_sort screenSize rooms s s).
    destruct (@exists_last _ (TriangulateTrace atan2f std_sort screenSize rooms s))
      as (l & a & ->); [discriminate |].
    rewrite last_last. apply in_or_app. right. left. reflexivity. }
  rewrite Forall_forall in Htrace. destruct (Htrace _ Hin) as [Hn Hwf].
  pose proof (FinishTriangulation_clean
                (fold_left
                   (fun s room => AddPoint atan2f std_sort (roomCenter room) s)
                   rooms (StartTriangulation screenSize (Clear s)))) as Hclean.
  change (FinishTriangulation _)
    with (Triangulate atan2f std_sort screenSize rooms s) in Hclean.
  unfold wf_state in Hwf. rewrite Forall_forall in Hwf, Hclean.
  apply Forall_forall. intros t Ht. split; [| apply Hclean, Ht].
  eapply wf_triangle_mono; [exact Hn | apply Hwf, Ht].
Qed.

Lemma not_referencesSuper_from_3 (n : nat) (t : Triangle) :
  wf_triangle n t -> ~ referencesSuper t ->
  3 <= first t /\ 3 <= second t /\ 3 <= third t.
Proof.
  unfold wf_triangle, validIndices, referencesSuper.
  intros (_ & H1 & H2 & H3) Hn.
  repeat split.
  - destruct (Z.le_gt_cases 3 (first t)); [assumption |].
    contradiction Hn. exists (first t). split; [lia | auto].
  - destruct (Z.le_gt_cases 3 (second t)); [assumption |].
    contradiction Hn. exists (second t). split; [lia | auto].
  - destruct (Z.le_gt_cases 3 (third t)); [assumption |].
    contradiction Hn. exists (third t). split; [lia | auto].
Qed.

(** X7: every triangle [Triangulate] returns names three different room
    centres: its indices are pairwise different and lie from 3 up to, not
    including, 3 plus the number of rooms. *)
Theorem Triangulate_output_names_rooms
  (screenSize : Z) (rooms : list DungeonRoom) (s : DelaunayTriangulation) :
  Forall
    (fun t =>
       (first t <> second t /\ first t <> third t /\ second t <> third t)
       /\ 3 <= first t < 3 + Z.of_nat (length rooms)
       /\ 3 <= second t < 3 + Z.of_nat (length rooms)
       /\ 3 <= third t < 3 + Z.of_nat (length rooms))
    (m_Triangles (Triangulate atan2f std_sort screenSize rooms s)).
Proof.
  eapply Forall_impl; [| apply Triangulate_result_inv].
  intros t [Hwf Hn].
  pose proof (not_referencesSuper_from_3 _ t Hwf Hn) as H3.
  destruct Hwf as (Hd & Hv). unfold validIndices in Hv.
  split; [exact Hd | lia].
Qed.

(** X8: with fewer than three rooms [Triangulate] returns no triangle. *)
Theorem Triangulate_fewer_than_three_rooms
  (screenSize : Z) (rooms : list DungeonRoom) (s : DelaunayTriangulation) :
  (length rooms < 3)%nat ->
  m_Triangles (Triangulate atan2f std_sort screenSize rooms s) = [].
Proof.
  intros Hrooms.
  pose proof (Triangulate_result_inv screenSize rooms s) as H.
  destruct (m_Triangles (Triangulate atan2f std_sort screenSize rooms s))
    as [| t ts]; [reflexivity |].
  inversion H as [| ? ? [Hwf Hn] _]; subst.
  pose proof (not_referencesSuper_from_3 _ t Hwf Hn) as H3.
  destruct Hwf as ((H12 & H13 & H23) & Hv). unfold validIndices in Hv. lia.
Qed.

End RunFacts.

(** ** The run properties at concrete inputs *)


(** X6 on the seeded state and the point (100,100), which is inside the
    circle of the super-triangle: at least three triangles are added. *)
Lemma AddPoint_adds_none_or_at_least_three_witness :
  exists added,
    m_Triangles
      (AddPoint atan2f_coarse insertion_sort (mkVector2 100 100)
         (mkDelaunayTriangulation
            [mkVector2 0 0; mkVector2 (-500) 2500; mkVector2 2500 (-500)]
            [mkTriangle 0 1 2]))
    = [] ++ added
    /\ (3 <= length added)%nat.
Proof.
  destruct (AddPoint_adds_none_or_at_least_three
              atan2f_coarse insertion_sort
              atan2f_coarse_contract insertion_sort_contract
              (mkVector2 100 100)
              (mkDelaunayTriangulation
                 [mkVector2 0 0; mkVector2 (-500) 2500; mkVector2 2500 (-500)]
                 [mkTriangle 0 1 2]))
    as (added & H1 & _ & _ & _ & H5).
  exists added. split.
  - etransitivity; [exact H1 |]. vm_compute. reflexivity.
  - apply H5. constructor. vm_compute. reflexivity.
Defined.

(** X7 on a run over four rooms. *)
Lemma Triangulate_output_names_rooms_witness :
  Forall
    (fun t =>
       (first t <> second t /\ first t <> third t /\ second t <> third t)
       /\ 3 <= first t < 3 + 4
       /\ 3 <= second t < 3 + 4
       /\ 3 <= third t < 3 + 4)
    (m_Triangles
       (Triangulate atan2f_coarse insertion_sort 500
          [mkDungeonRoom (mkVector2 90 90) (mkVector2 20 20);
           mkDungeonRoom (mkVector2 290 110) (mkVector2 20 20);
           mkDungeonRoom (mkVector2 120 290) (mkVector2 20 20);
           mkDungeonRoom (mkVector2 310 320) (mkVector2 20 20)]
          (mkDelaunayTriangulation [] []))).
Proof.
  exact (Triangulate_output_names_rooms
           atan2f_coarse insertion_sort
           atan2f_coarse_contract insertion_sort_contract 500
           [mkDungeonRoom (mkVector2 90 90) (mkVector2 20 20);
            mkDungeonRoom (mkVector2 290 110) (mkVector2 20 20);
            mkDungeonRoom (mkVector2 120 290) (mkVector2 20 20);
            mkDungeonRoom (mkVector2 310 320) (mkVector2 20 20)]
           (mkDelaunayTriangulation [] [])).
Defined.

(** X8 on a run over two rooms. *)
Lemma Triangulate_fewer_than_three_rooms_witness :
  m_Triangles
    (Triangulate atan2f_coarse insertion_sort 500
       [mkDungeonRoom (mkVector2 90 90) (mkVector2 20 20);
        mkDungeonRoom (mkVector2 290 110) (mkVector2 20 20)]
       (mkDelaunayTriangulation [] [])) = [].
Proof.
  apply (Triangulate_fewer_than_three_rooms
           atan2f_coarse insertion_sort
           atan2f_coarse_contract insertion_sort_contract 500
           [mkDungeonRoom (mkVector2 90 90) (mkVector2 20 20);
            mkDungeonRoom (mkVector2 290 110) (mkVector2 20 20)]
           (mkDelaunayTriangulation [] [])).
  simpl. lia.
Defined.

(** * The polygon sort: where the shifted angles lie *)

(** ** Rounding in binary32 *)

Module Float32Round.

Lemma digits2_pos_bounds (p : positive) :
  2 ^ (Z.pos (digits2_pos p) - 1) <= Z.pos p < 2 ^ Z.pos (digits2_pos p).
Proof.
  induction p as [p IH | p IH |]; cbn [digits2_pos].
  - rewrite Pos2Z.inj_succ.
    replace (Z.succ (Z.pos (digits2_pos p)) - 1) with (Z.succ (Z.pos (digits2_pos p) - 1)) by lia.
    rewrite !Z.pow_succ_r by lia. lia.
  - rewrite Pos2Z.inj_succ.
    replace (Z.succ (Z.pos (digits2_pos p)) - 1) with (Z.succ (Z.pos (digits2_pos p) - 1)) by lia.
    rewrite !Z.pow_succ_r by lia. lia.
  - simpl. lia.
Qed.

Lemma digits2_pos_unique (p : positive) (k : Z) :
  2 ^ (k - 1) <= Z.pos p < 2 ^ k -> Z.pos (digits2_pos p) = k.
Proof.
  intros [Hlo Hhi]. pose proof (digits2_pos_bounds p) as [Blo Bhi].
  assert (Hk : 0 < k).
  { destruct (Z.lt_ge_cases 0 k); [assumption |].
    assert (2 ^ k <= 1).
    { destruct (Z.eq_dec k 0) as [-> | ]; [simpl; lia |].
      rewrite Z.pow_neg_r by lia. lia. }
    lia. }
  destruct (Z.lt_trichotomy (Z.pos (digits2_pos p)) k) as [H | [H | H]]; [| exact H |].
  - assert (2 ^ Z.pos (digits2_pos p) <= 2 ^ (k - 1))
      by (apply Z.pow_le_mono_r; lia). lia.
  - assert (2 ^ k <= 2 ^ (Z.pos (digits2_pos p) - 1))
      by (apply Z.pow_le_mono_r; lia). lia.
Qed.

Lemma iter_xO (d : positive) (m : positive) :
  Z.pos (Pos.iter xO m d) = Z.pos m * 2 ^ Z.pos d.
Proof.
  revert m. induction d as [| d IH] using Pos.peano_ind; intros m.
  - simpl. lia.
  - rewrite Pos.iter_succ, Pos2Z.inj_succ, Z.pow_succ_r by lia.
    rewrite Pos2Z.inj_xO, IH. lia.
Qed.

Lemma shr_1_div2 (mrs : shr_record) :
  0 <= shr_m mrs -> shr_m (shr_1 mrs) = shr_m mrs / 2.
Proof.
  destruct mrs as [m r s]. destruct m as [| p | p]; cbn [shr_1 shr_m]; intros H.
  - reflexivity.
  - destruct p as [p | p |]; cbn [shr_m].
    + rewrite Pos2Z.inj_xI. apply Z.div_unique with 1; lia.
    + rewrite Pos2Z.inj_xO. apply Z.div_unique with 0; lia.
    + reflexivity.
  - lia.
Qed.

Lemma iter_shr_1_div (p : positive) : forall mrs,
  0 <= shr_m mrs ->
  shr_m (iter_pos shr_1 p mrs) = shr_m mrs / 2 ^ Z.pos p.
Proof.
  induction p as [p IH | p IH |]; intros mrs H; cbn [iter_pos].
  - assert (H1 : 0 <= shr_m (shr_1 mrs)) by (apply Float32Facts.shr_1_nonneg, H).
    assert (H2 : 0 <= shr_m (iter_pos shr_1 p (shr_1 mrs)))
      by (apply Float32Facts.iter_shr_1_nonneg, H1).
    rewrite IH, IH, shr_1_div2 by assumption.
    assert (P : 0 < 2 ^ Z.pos p) by (apply Z.pow_pos_nonneg; lia).
    rewrite !Z.div_div by lia.
    f_equal.
    replace (Z.pos p~1) with (1 + Z.pos p + Z.pos p) by lia.
    rewrite !Z.pow_add_r by lia. change (2 ^ 1) with 2. ring.
  - assert (H2 : 0 <= shr_m (iter_pos shr_1 p mrs))
      by (apply Float32Facts.iter_shr_1_nonneg, H).
    rewrite IH, IH by assumption.
    assert (P : 0 < 2 ^ Z.pos p) by (apply Z.pow_pos_nonneg; lia).
    rewrite !Z.div_div by lia.
    f_equal.
    replace (Z.pos p~0) with (Z.pos p + Z.pos p) by lia.
    rewrite !Z.pow_add_r by lia. ring.
  - rewrite shr_1_div2 by assumption. reflexivity.
Qed.

Lemma round_nearest_even_bounds (q : Z) (l : location) :
  q <= round_nearest_even q l <= q + 1.
Proof.
  destruct l as [| []]; cbn [round_nearest_even]; try lia.
  destruct (Z.even q); lia.
Qed.

Lemma fexp32 (e : Z) : fexp 24 128 e = Z.max (e - 24) (-149).
Proof. reflexivity. Qed.

Lemma shr_fexp_noshift (m e : Z) (l : location) :
  fexp 24 128 (Zdigits2 m + e) <= e ->
  shr_fexp 24 128 m e l = (shr_record_of_loc m l, e).
Proof.
  intros H. unfold shr_fexp, shr.
  destruct (fexp 24 128 (Zdigits2 m + e) - e) as [| p | p] eqn:E;
    [reflexivity | lia | reflexivity].
Qed.

Lemma shr_fexp_shift (m e : Z) (l : location) :
  0 <= m -> 0 < fexp 24 128 (Zdigits2 m + e) - e ->
  shr_m (fst (shr_fexp 24 128 m e l))
  = m / 2 ^ (fexp 24 128 (Zdigits2 m + e) - e)
  /\ snd (shr_fexp 24 128 m e l) = fexp 24 128 (Zdigits2 m + e).
Proof.
  intros Hm H. unfold shr_fexp, shr.
  destruct (fexp 24 128 (Zdigits2 m + e) - e) as [| p | p] eqn:E; try lia.
  cbn [fst snd]. split; [| lia].
  rewrite iter_shr_1_div; destruct l as [| []]; cbn [shr_record_of_loc shr_m];
    try reflexivity; exact Hm.
Qed.

Lemma binary_round_aux_noshift (sx : bool) (m : positive) (e : Z) :
  fexp 24 128 (Z.pos (digits2_pos m) + e) <= e -> e <= 104 ->
  binary_round_aux 24 128 sx (Z.pos m) e loc_Exact = S754_finite sx m e.
Proof.
  intros H He. unfold binary_round_aux.
  rewrite (shr_fexp_noshift (Z.pos m) e loc_Exact H).
  cbn [shr_record_of_loc shr_m loc_of_shr_record round_nearest_even].
  rewrite (shr_fexp_noshift (Z.pos m) e loc_Exact H).
  cbn [shr_record_of_loc shr_m].
  replace (e <=? 128 - 24) with true by (symmetry; apply Z.leb_le; lia).
  reflexivity.
Qed.

Lemma binary_round_aux_shift (sx : bool) (m : positive) (e : Z) (lx : location) :
  24 < Z.pos (digits2_pos m) ->
  -149 <= Z.pos (digits2_pos m) + e - 24 ->
  Z.pos (digits2_pos m) + e - 24 + 1 <= 104 ->
  exists m'' e'',
    binary_round_aux 24 128 sx (Z.pos m) e lx = S754_finite sx m'' e''
    /\ ((e'' = Z.pos (digits2_pos m) + e - 24
         /\ Z.pos m / 2 ^ (Z.pos (digits2_pos m) - 24) <= Z.pos m''
            <= Z.pos m / 2 ^ (Z.pos (digits2_pos m) - 24) + 1)
        \/ (e'' = Z.pos (digits2_pos m) + e - 24 + 1
            /\ Z.pos m'' = 2 ^ 23
            /\ Z.pos m / 2 ^ (Z.pos (digits2_pos m) - 24) + 1 = 2 ^ 24)).
Proof.
  intros HD Hlo Hhi.
  set (D := Z.pos (digits2_pos m)) in *.
  assert (HT : fexp 24 128 (Zdigits2 (Z.pos m) + e) = D + e - 24).
  { rewrite fexp32. cbn [Zdigits2]. fold D. lia. }
  destruct (shr_fexp_shift (Z.pos m) e lx) as [Hq He']; [lia | lia |].
  rewrite HT in Hq, He'.
  replace (D + e - 24 - e) with (D - 24) in Hq by lia.
  pose proof (digits2_pos_bounds m) as [Blo Bhi]. fold D in Blo, Bhi.
  assert (P : 0 < 2 ^ (D - 24)) by (apply Z.pow_pos_nonneg; lia).
  assert (Q1 : 2 ^ 23 <= Z.pos m / 2 ^ (D - 24)).
  { apply Z.div_le_lower_bound; [exact P |].
    rewrite <- Z.pow_add_r by lia. replace (D - 24 + 23) with (D - 1) by lia.
    exact Blo. }
  assert (Q2 : Z.pos m / 2 ^ (D - 24) < 2 ^ 24).
  { apply Z.div_lt_upper_bound; [exact P |].
    rewrite <- Z.pow_add_r by lia. replace (D - 24 + 24) with D by lia.
    exact Bhi. }
  unfold binary_round_aux.
  destruct (shr_fexp 24 128 (Z.pos m) e lx) as [mrs' e']. cbn [fst snd] in Hq, He'.
  subst e'.
  pose proof (round_nearest_even_bounds (shr_m mrs') (loc_of_shr_record mrs')) as R.
  set (m1 := round_nearest_even (shr_m mrs') (loc_of_shr_record mrs')) in *.
  rewrite Hq in R. clearbody m1.
  change (2 ^ 23) with 8388608 in *. change (2 ^ 24) with 16777216 in *.
  destruct m1 as [| p1 | p1]; try lia.
  destruct (Z.lt_ge_cases (Z.pos p1) 16777216) as [Hlt | Hge].
  - assert (Hd : Z.pos (digits2_pos p1) = 24)
      by (apply digits2_pos_unique; change (2 ^ (24 - 1)) with 8388608;
          change (2 ^ 24) with 16777216; lia).
    rewrite (shr_fexp_noshift (Z.pos p1) (D + e - 24) loc_Exact)
      by (rewrite fexp32; cbn [Zdigits2]; rewrite Hd; lia).
    cbn [shr_record_of_loc shr_m].
    replace (D + e - 24 <=? 128 - 24) with true by (symmetry; apply Z.leb_le; lia).
    exists p1, (D + e - 24). split; [reflexivity |]. left. lia.
  - assert (E1 : Z.pos p1 = 16777216) by lia.
    injection E1 as ->.
    destruct (shr_fexp_shift 16777216 (D + e - 24) loc_Exact) as [Hq2 He2];
      [lia | rewrite fexp32; cbn [Zdigits2 digits2_pos]; lia |].
    destruct (shr_fexp 24 128 16777216 (D + e - 24) loc_Exact) as [mrs'' e''].
    cbn [fst snd] in Hq2, He2. rewrite Hq2, He2.
    replace (fexp 24 128 (Zdigits2 16777216 + (D + e - 24)))
      with (D + e - 24 + 1) by (rewrite fexp32; cbn [Zdigits2 digits2_pos]; lia).
    replace (D + e - 24 + 1 - (D + e - 24)) with 1 by lia.
    change (16777216 / 2 ^ 1) with 8388608.
    replace (D + e - 24 + 1 <=? 128 - 24) with true by (symmetry; apply Z.leb_le; lia).
    exists 8388608%positive, (D + e - 24 + 1). split; [reflexivity |]. right. lia.
Qed.

(** Rounding a positive [z * 2^e] that lies below [mc * 2^(e + d)], a
    number of 24 digits, gives a number not above it. *)
Lemma binary_round_below (sx : bool) (zp : positive) (e d mc : Z) :
  -149 <= e -> 0 <= d -> e + d <= 103 ->
  2 ^ 23 <= mc < 2 ^ 24 ->
  Z.pos zp < mc * 2 ^ d ->
  exists m'' e'',
    binary_round 24 128 sx zp e = S754_finite sx m'' e''
    /\ (e'' < e + d \/ (e'' = e + d /\ Z.pos m'' <= mc)).
Proof.
  intros He Hd Hec Hmc Hz.
  pose proof (digits2_pos_bounds zp) as [Blo Bhi].
  set (D := Z.pos (digits2_pos zp)) in *.
  assert (P : 0 < 2 ^ d) by (apply Z.pow_pos_nonneg; lia).
  assert (HD : D <= 24 + d).
  { assert (Hlt : 2 ^ (D - 1) < 2 ^ (24 + d)).
    { rewrite Z.pow_add_r by lia. nia. }
    apply Z.pow_lt_mono_r_iff in Hlt; lia. }
  unfold binary_round. fold D. rewrite fexp32.
  unfold shl_align.
  destruct (Z.max (D + e - 24) (-149) - e) as [| dd | dd] eqn:Edd.
  - (* the exponent stays *)
    rewrite binary_round_aux_noshift by (try rewrite fexp32; fold D; lia).
    exists zp, e. split; [reflexivity |].
    destruct (Z.eq_dec d 0) as [-> | Hd0]; [| left; lia].
    right. rewrite Z.mul_1_r in Hz. lia.
  - (* digits are cut *)
    assert (HD24 : 24 < D) by lia.
    destruct (binary_round_aux_shift sx zp e loc_Exact)
      as (m'' & e'' & -> & Hcases); fold D; try lia.
    exists m'', e''. split; [reflexivity |].
    fold D in Hcases.
    destruct (Z.eq_dec (D + e - 24) (e + d)) as [Heq | Hne].
    + assert (Es : D - 24 = d) by lia. rewrite Es in Hcases.
      assert (Hq : Z.pos zp / 2 ^ d < mc)
        by (apply Z.div_lt_upper_bound; [exact P | lia]).
      destruct Hcases as [[-> Hm] | [-> [Hm Hc]]]; [right; lia | lia].
    + destruct Hcases as [[-> Hm] | [-> [Hm Hc]]]; [left; lia |].
      destruct (Z.eq_dec (D + e - 24 + 1) (e + d)); [right; lia | left; lia].
  - (* zeros are appended *)
    assert (Hmz : Z.pos (Pos.iter xO zp dd) = Z.pos zp * 2 ^ Z.pos dd)
      by apply iter_xO.
    assert (P' : 0 < 2 ^ Z.pos dd) by (apply Z.pow_pos_nonneg; lia).
    assert (Hdz : Z.pos (digits2_pos (Pos.iter xO zp dd)) = D + Z.pos dd).
    { apply digits2_pos_unique. rewrite Hmz.
      replace (D + Z.pos dd - 1) with (D - 1 + Z.pos dd) by lia.
      rewrite !Z.pow_add_r by lia. nia. }
    rewrite binary_round_aux_noshift
      by (try rewrite fexp32; try rewrite Hdz; lia).
    exists (Pos.iter xO zp dd), (Z.max (D + e - 24) (-149)).
    split; [reflexivity |]. left. lia.
Qed.

Lemma bounded_facts (m : positive) (e : Z) :
  bounded 24 128 m e = true -> -149 <= e /\ Z.pos m < 2 ^ 24.
Proof.
  unfold bounded, canonical_mantissa. intros H.
  apply andb_true_iff in H. destruct H as [H _].
  apply Z.eqb_eq in H. rewrite fexp32 in H.
  pose proof (digits2_pos_bounds m) as [_ Bhi].
  split; [lia |].
  eapply Z.lt_le_trans; [exact Bhi |]. apply Z.pow_le_mono_r; lia.
Qed.

(** A negative number not below minus pi, added to two pi: a number from
    zero to two pi. *)
Lemma add_twoPi_range (m : positive) (e : Z) :
  bounded 24 128 m e = true ->
  e < -22 \/ (e = -22 /\ Z.pos m <= 13176795) ->
  exists m'' e'',
    SFadd 24 128 (S754_finite true m e) (S754_finite false 13176795 (-21))
    = S754_finite false m'' e''
    /\ (e'' < -21 \/ (e'' = -21 /\ Z.pos m'' <= 13176795)).
Proof.
  intros Hb Hle. destruct (bounded_facts m e Hb) as [He Hm].
  change (2 ^ 24) with 16777216 in Hm.
  unfold SFadd. rewrite Z.min_l by lia.
  unfold shl_align. rewrite Z.sub_diag. cbn [fst].
  destruct (e - -21) as [| dd | dd] eqn:Edd; try lia.
  cbn [fst cond_Zopp].
  assert (Hmz : Z.pos (Pos.iter xO 13176795%positive dd) = 13176795 * 2 ^ Z.pos dd)
    by apply iter_xO.
  assert (P2 : 2 ^ 1 <= 2 ^ Z.pos dd) by (apply Z.pow_le_mono_r; lia).
  change (2 ^ 1) with 2 in P2.
  destruct (- Z.pos m + Z.pos (Pos.iter xO 13176795%positive dd)) as [| zp | zp] eqn:Ez;
    try lia.
  cbn [binary_normalize].
  destruct (binary_round_below false zp e (Z.pos dd) 13176795)
    as (m'' & e'' & Hr & Hc);
    try (change (2 ^ 23) with 8388608; change (2 ^ 24) with 16777216; lia).
  exists m'', e''. split; [exact Hr |]. lia.
Qed.

Lemma leb_finite_negative (m1 m2 : positive) (e1 e2 : Z) :
  SFleb (S754_finite true m1 e1) (S754_finite true m2 e2) = true
  <-> e2 < e1 \/ (e2 = e1 /\ Z.pos m2 <= Z.pos m1).
Proof.
  unfold SFleb, SFcompare. fold (Pos.compare m1 m2).
  destruct (Z.compare_spec e1 e2); destruct (Pos.compare_spec m1 m2);
    cbn [CompOpp]; split; intros; try reflexivity; try discriminate; lia.
Qed.

Lemma leb_finite_positive (m1 m2 : positive) (e1 e2 : Z) :
  SFleb (S754_finite false m1 e1) (S754_finite false m2 e2) = true
  <-> e1 < e2 \/ (e1 = e2 /\ Z.pos m1 <= Z.pos m2).
Proof.
  unfold SFleb, SFcompare. fold (Pos.compare m1 m2).
  destruct (Z.compare_spec e1 e2); destruct (Pos.compare_spec m1 m2);
    split; intros; try reflexivity; try discriminate; lia.
Qed.

(** An angle that is a binary32 number from minus pi to pi: after
    [normalizeAngle] it is from zero to two pi. *)
Lemma normalizeAngle_range (a : Float32.float) :
  valid_binary Float32.prec Float32.emax a = true ->
  SFleb (SFopp pi_f) a = true -> SFleb a pi_f = true ->
  Float32.ltb (normalizeAngle a) Float32.zero = false
  /\ SFleb (normalizeAngle a) twoPi = true.
Proof.
  unfold normalizeAngle.
  change (Float32.mul (Float32.of_int 2) (Float32.of_double Float32.M_PI))
    with (S754_finite false 13176795 (-21)).
  change twoPi with (S754_finite false 13176795 (-21)).
  change (SFopp pi_f) with (S754_finite true 13176795 (-22)).
  change pi_f with (S754_finite false 13176795 (-22)).
  change Float32.prec with 24. change Float32.emax with 128.
  destruct a as [s | s | | s m e]; intros Hv Hlo Hhi.
  - split; reflexivity.
  - destruct s; discriminate.
  - discriminate.
  - destruct s.
    + change (Float32.ltb (S754_finite true m e) Float32.zero) with true.
      cbv iota.
      apply leb_finite_negative in Hlo.
      destruct (add_twoPi_range m e Hv) as (m'' & e'' & Hr & Hc); [lia |].
      change (Float32.add (S754_finite true m e)
                (S754_finite false 13176795 (-21)))
        with (SFadd 24 128 (S754_finite true m e)
                (S754_finite false 13176795 (-21))).
      rewrite Hr. split; [reflexivity |].
      apply leb_finite_positive. lia.
    + change (Float32.ltb (S754_finite false m e) Float32.zero) with false.
      cbv iota. split; [reflexivity |].
      apply leb_finite_positive in Hhi. apply leb_finite_positive. lia.
Qed.

End Float32Round.

Lemma atan2f_range_not_nan
  (atan2f : Float32.float -> Float32.float -> Float32.float) :
  atan2f_range_contract atan2f -> atan2f_contract atan2f.
Proof.
  intros H b a Hb Ha. destruct (H b a Hb Ha) as (_ & _ & Hhi).
  destruct (atan2f b a); [reflexivity | reflexivity | discriminate Hhi | reflexivity].
Qed.

Lemma atan2f_coarse_range_contract : atan2f_range_contract atan2f_coarse.
Proof.
  intros b a Hb Ha. unfold atan2f_coarse, signOf.
  destruct b as [sb | sb | | sb mb eb]; try discriminate Hb;
    destruct a as [sa | sa | | sa ma ea]; try discriminate Ha;
    try destruct sb; try destruct sa; vm_compute; auto.
Qed.

(** C4 as stated does not hold: an angle below zero is not always moved
    below two pi.  The binary32 number -2^-24 is a negative angle within
    the range of [atan2f]; adding two pi to it gives, after rounding,
    exactly [2.0f * static_cast<float>(M_PI)], which is not below itself
    and is above the binary64 value of two pi. *)
Lemma normalizeAngle_reaches_two_pi :
  valid_binary Float32.prec Float32.emax (S754_finite true 8388608 (-47)) = true
  /\ Float32.ltb (S754_finite true 8388608 (-47)) Float32.zero = true
  /\ SFleb (SFopp pi_f) (S754_finite true 8388608 (-47)) = true
  /\ normalizeAngle (S754_finite true 8388608 (-47)) = twoPi
  /\ Float32.ltb (normalizeAngle (S754_finite true 8388608 (-47))) twoPi
     = false
  /\ SFltb (SFmul 53 1024 (binary_normalize 53 1024 2 0 false) Float32.M_PI)
           (normalizeAngle (S754_finite true 8388608 (-47))) = true.
Proof. repeat split; vm_compute; reflexivity. Qed.

Section PolygonSort.

Variable atan2f : Float32.float -> Float32.float -> Float32.float.
Variable std_sort : (Z -> Z -> bool) -> list Z -> list Z.

Hypothesis atan2f_range : atan2f_range_contract atan2f.
Hypothesis std_sort_ok : sort_contract std_sort.

(** C4, as the code has it: in [AddPoint], the polygon the first loop
    collected is sorted into ascending order of the angle [atan2f] gives
    for (vertex - point), an angle below zero counting with
    [2.0f * static_cast<float>(M_PI)] added, so that every angle compared
    is from zero to that binary32 two pi, both ends included; after that
    the triangles in storage are those the first loop left followed by
    one triangle (boundary[i], boundary[(i + 1) mod n], newIndice) for each
    of the [n] positions [i] of the sorted polygon, in order. *)
Theorem AddPoint_sorts_polygon_and_fans
  (point : Vector2) (s : DelaunayTriangulation) :
  let newIndice := Z.of_nat (length (m_Vertices s)) in
  let vertices := m_Vertices s ++ [point] in
  let scanned :=
    scanLoop newIndice (length (m_Triangles s))
      (mkDelaunayTriangulation vertices (m_Triangles s), []) in
  let angle := fun indice =>
    let vector := Vector2_sub (vertexAt vertices indice) point in
    let a := atan2f (Float32.of_int (y vector)) (Float32.of_int (x vector)) in
    if Float32.ltb a Float32.zero
    then Float32.add a
           (Float32.mul (Float32.of_int 2) (Float32.of_double Float32.M_PI))
    else a in
  let boundary :=
    std_sort (fun indice0 indice1 =>
                Float32.ltb (angle indice0) (angle indice1))
             (snd scanned) in
  let n := length boundary in
  Permutation (snd scanned) boundary
  /\ n = length (snd scanned)
  /\ StronglySorted (fun a b => Float32.ltb (angle b) (angle a) = false)
       boundary
  /\ (forall indice,
        Float32.ltb (angle indice) Float32.zero = false
        /\ SFleb (angle indice)
             (Float32.mul (Float32.of_int 2) (Float32.of_double Float32.M_PI))
           = true)
  /\ m_Vertices (AddPoint atan2f std_sort point s) = vertices
  /\ m_Triangles (AddPoint atan2f std_sort point s)
     = m_Triangles (fst scanned)
       ++ map (fun i => mkTriangle (nth i boundary 0)
                                   (nth ((i + 1) mod n) boundary 0)
                                   newIndice)
              (seq 0 n).
Proof.
  intros newIndice vertices scanned angle boundary n.
  assert (Hvs : m_Vertices (fst scanned) = vertices)
    by apply scanLoop_vertices.
  destruct (std_sort_polygon atan2f std_sort
              (atan2f_range_not_nan atan2f atan2f_range) std_sort_ok
              vertices point (snd scanned)) as [Hperm Hsorted].
  change (std_sort (polygonLess atan2f vertices point) (snd scanned))
    with boundary in Hperm, Hsorted.
  split; [exact Hperm |].
  split; [symmetry; apply Permutation_length, Hperm |].
  split; [exact Hsorted |].
  split; [| split].
  - intros indice.
    destruct (atan2f_range
                (Float32.of_int (y (Vector2_sub (vertexAt vertices indice) point)))
                (Float32.of_int (x (Vector2_sub (vertexAt vertices indice) point)))
                (Float32Facts.of_int_not_nan _) (Float32Facts.of_int_not_nan _))
      as (Hv & Hlo & Hhi).
    exact (Float32Round.normalizeAngle_range _ Hv Hlo Hhi).
  - apply AddPoint_vertices.
  - rewrite AddPoint_eq. cbv zeta. cbn [AddVertex snd].
    fold newIndice vertices scanned. rewrite Hvs.
    change (std_sort (polygonLess atan2f vertices point) (snd scanned))
      with boundary.
    fold n. apply fanLoop_triangles.
Qed.

End PolygonSort.

(** C4 on the insertion of (100,100) into the seeded state: the polygon
    0, 1, 2 is sorted to 1, 0, 2 and three triangles are made. *)
Lemma AddPoint_sorts_polygon_and_fans_witness :
  m_Triangles
    (AddPoint atan2f_coarse insertion_sort (mkVector2 100 100)
       (mkDelaunayTriangulation
          [mkVector2 0 0; mkVector2 (-500) 2500; mkVector2 2500 (-500)]
          [mkTriangle 0 1 2]))
  = [mkTriangle 1 0 3; mkTriangle 0 2 3; mkTriangle 2 1 3].
Proof.
  etransitivity.
  - apply (AddPoint_sorts_polygon_and_fans
             atan2f_coarse insertion_sort
             atan2f_coarse_range_contract insertion_sort_contract
             (mkVector2 100 100)
             (mkDelaunayTriangulation
                [mkVector2 0 0; mkVector2 (-500) 2500; mkVector2 2500 (-500)]
                [mkTriangle 0 1 2])).
  - vm_compute. reflexivity.
Defined.
